(** * YMP pipelines: stage chains, output maps and project roots

    A shallow embedding of [ymp.stage.pipeline.Pipeline]
    (src/ymp/stage/pipeline.py) together with the parts of the
    configuration it talks to, and the properties of the composition
    layer proved over it.

    Python objects that are mutated in place and may be shared (the
    configured stage-name list and the scratch copy the constructor pops
    from) live in an explicit store; [StageStack] instances carry an object
    identity; exceptions are an explicit outcome.

    The later sections cover the rest of the sources: the Sphinx domain,
    its directives and the collector of entries for the table of contents
    (ymp/sphinxext.py), and the tables of test targets (tests/data.py). *)

From Stdlib Require Import String Ascii.
From stdpp Require Import base option list gmap strings relations pretty.

Local Open Scope string_scope.
Local Open Scope list_scope.

(** ** Python-level values *)

(** [sep.join(l)] *)
Fixpoint join (sep : string) (l : list string) : string :=
  match l with
  | [] => ""
  | [x] => x
  | x :: xs => x +:+ sep +:+ join sep xs
  end.

(** [s.split(sep)] for a one-character separator: never returns the
    empty list, [''.split('.')] is [['']]. *)
Fixpoint split (sep : ascii) (s : string) : list string :=
  match s with
  | EmptyString => [""]
  | String c s' =>
      if Ascii.eqb c sep then "" :: split sep s'
      else match split sep s' with
           | [] => [String c ""]
           | w :: ws => String c w :: ws
           end
  end.

(** An insertion-ordered [dict] from strings to strings: keys are unique
    and [keys()] lists them oldest first. *)
Definition dict := list (string * string).

Fixpoint dict_get (k : string) (d : dict) : option string :=
  match d with
  | [] => None
  | (k', v) :: d' => if decide (k = k') then Some v else dict_get k d'
  end.

(** [k in d] *)
Definition dict_mem (k : string) (d : dict) : bool :=
  bool_decide (is_Some (dict_get k d)).

(** [d[k] = v]: overwrite in place, or append a new key. *)
Fixpoint dict_set (k v : string) (d : dict) : dict :=
  match d with
  | [] => [(k, v)]
  | (k', v') :: d' =>
      if decide (k = k') then (k, v) :: d' else (k', v') :: dict_set k v d'
  end.

(** [list(d.keys())] *)
Definition dict_keys (d : dict) : list string := d.*1.

(** ** Configuration objects *)

(** A leaf stage: its name and the output filenames it declares, in
    iteration order. *)
Record Stage := mkStage {
  stage_name : string;
  stage_outputs : list string
}.

Record Project := mkProject {
  project_name : string
}.

(** Modelled from the spec: [ymp.stage.StageStack] is not among the
    sources. An instance is identified by its canonical chain key
    ([stack_name], which is also its path) and keeps the ordered names of
    the chain; [stack_id] is the identity of the Python object. *)
Record StageStack := mkStageStack {
  stack_id : nat;
  stack_name : string;
  stack_stage_names : list string
}.

(** References to Python list objects. *)
Definition loc := nat.

(** [Pipeline] instances: [stages] is a reference to the configured list
    (the constructor stores the object it was given, it does not copy it). *)
Record Pipeline := mkPipeline {
  name : string;
  stages : loc;
  stagestack : StageStack;
  output_map : dict
}.

(** What [ymp.get_config()] exposes to this module: the project and
    pipeline registries, and the stage registry consulted by
    [StageStack]. *)
Record Config := mkConfig {
  projects : gmap string Project;
  pipelines : gmap string Pipeline;
  stage_registry : gmap string Stage
}.

(** ** Interpreter state, exceptions, and the monad threading them *)

Inductive exn := YmpConfigError | IndexError | TypeError | RecursionError.

(** [OutOfFuel] is not a Python outcome: it marks a loop of the model
    that was given too few iterations. *)
Inductive outcome (A : Type) :=
  | Return (a : A)
  | Raise (e : exn)
  | OutOfFuel.
Arguments Return {A} a.
Arguments Raise {A} e.
Arguments OutOfFuel {A}.

(** The mutable part of one configuration lifetime: the store of list
    objects, the [StageStack.stacks] memo table, and every [StageStack]
    instance constructed so far. *)
Record Session := mkSession {
  heap : list (list string);
  stacks : gmap string StageStack;
  created : list StageStack
}.

Definition empty_session : Session := mkSession [] ∅ [].

Definition M (A : Type) : Type := Session → outcome A * Session.

Definition ret {A} (a : A) : M A := λ σ, (Return a, σ).
Definition raise {A} (e : exn) : M A := λ σ, (Raise e, σ).
Definition out_of_fuel {A} : M A := λ σ, (OutOfFuel, σ).
Definition bind {A B} (m : M A) (k : A → M B) : M B :=
  λ σ, match m σ with
       | (Return a, σ') => k a σ'
       | (Raise e, σ') => (Raise e, σ')
       | (OutOfFuel, σ') => (OutOfFuel, σ')
       end.

Notation "'let*' x ':=' m 'in' k" := (bind m (λ x, k))
  (at level 10, x name, m at level 100, k at level 200).

(** Dereference a list object. *)
Definition read (ℓ : loc) : M (list string) :=
  λ σ, match heap σ !! ℓ with
       | Some l => (Return l, σ)
       | None => (Raise TypeError, σ)
       end.

(** [list(l)]: a fresh list object with the same elements. *)
Definition new_list (l : list string) : M loc :=
  λ σ, (Return (length (heap σ)),
        mkSession (heap σ ++ [l]) (stacks σ) (created σ)).

(** The session in which the list object at [ℓ] holds [l]. *)
Definition store (ℓ : loc) (l : list string) (σ : Session) : Session :=
  mkSession (<[ℓ := l]> (heap σ)) (stacks σ) (created σ).

(** [l.pop()]: remove and return the last element. *)
Definition pop (ℓ : loc) : M string :=
  λ σ, match heap σ !! ℓ with
       | Some l =>
           match last l with
           | Some x => (Return x, store ℓ (removelast l) σ)
           | None => (Raise IndexError, σ)
           end
       | None => (Raise TypeError, σ)
       end.

(** ** The model of the code *)

Section Pipelines.

(** The configuration returned by [ymp.get_config()]. *)
Variable cfg : Config.

(** Modelled from the spec: [StageStack._find_stage] is not among the
    sources. Its contract is [Stage | None]: the stage claiming a name,
    or the routine negative result, never an exception. *)
Variable _find_stage : StageStack → string → option Stage.

(** *** StageStack *)

(** Modelled from the spec: a name of a chain is known when the stage
    registry, the project registry or the pipeline registry has it. *)
Definition known_name (n : string) : bool :=
  bool_decide (is_Some (stage_registry cfg !! n))
  || bool_decide (is_Some (projects cfg !! n))
  || bool_decide (is_Some (pipelines cfg !! n)).

(** Modelled from the spec: a chain key is valid when its chain is not
    empty and names nothing unknown to every registry. *)
Definition valid_chain_key (path : string) : bool :=
  negb (bool_decide (path = "")) && forallb known_name (split "." path).

(** Modelled from the spec: the [StageStack] constructor, absent from the
    sources. An invalid chain is a configuration error; otherwise a new
    instance is allocated. *)
Definition StageStack_new (path : string) : M StageStack :=
  λ σ, if valid_chain_key path then
         let s := mkStageStack (length (created σ)) path (split "." path) in
         (Return s, mkSession (heap σ) (stacks σ) (created σ ++ [s]))
       else (Raise YmpConfigError, σ).

(** Modelled from the spec: [StageStack.get], absent from the sources:
    the memoized stack for a chain key, constructed on first request. *)
Definition StageStack_get (path : string) : M StageStack :=
  λ σ, match stacks σ !! path with
       | Some s => (Return s, σ)
       | None =>
           match StageStack_new path σ with
           | (Return s, σ') =>
               (Return s,
                mkSession (heap σ') (<[path := s]> (stacks σ')) (created σ'))
           | r => r
           end
       end.

(** *** Pipeline.__init__ *)

(** [if fname not in output_map: output_map[fname] = path] *)
Definition record_output (path : string) (output_map : dict) (fname : string)
  : dict :=
  if dict_mem fname output_map then output_map
  else dict_set fname path output_map.

(** [for fname in stage.outputs: ...] *)
Definition record_outputs (stage : Stage) (path : string) (output_map : dict)
  : dict :=
  foldl (record_output path) output_map (stage_outputs stage).

(** The [while stage_names:] loop of the constructor; [fuel] bounds the
    number of iterations. *)
Fixpoint while_stage_names (fuel : nat) (stack : StageStack)
    (stage_names : loc) (output_map : dict) : M dict :=
  let* l := read stage_names in
  match l with
  | [] => ret output_map
  | _ :: _ =>
      match fuel with
      | 0 => out_of_fuel
      | S fuel' =>
          let path := join "." l in
          let* n := pop stage_names in
          match _find_stage stack n with
          | None => while_stage_names fuel' stack stage_names output_map
          | Some stage =>
              while_stage_names fuel' stack stage_names
                (record_outputs stage path output_map)
          end
      end
  end.

(** [Pipeline(name, cfg)]: [stages_cfg] is the list object passed as
    [cfg]. The base class constructor records the name. *)
Definition Pipeline_init (name : string) (stages_cfg : loc) : M Pipeline :=
  let self_stages := stages_cfg in
  let* l := read self_stages in
  let* stagestack := StageStack_get (join "." l) in
  let* stage_names := new_list l in
  let* output_map :=
    while_stage_names (length l) stagestack stage_names [] in
  ret (mkPipeline name self_stages stagestack output_map).

(** *** Properties of a Pipeline *)

(** [Pipeline.project]; [depth] is the number of frames the interpreter
    still allows, and [h] the store of list objects. *)
Fixpoint project (depth : nat) (h : list (list string)) (self : Pipeline)
  : outcome Project :=
  match depth with
  | 0 => Raise RecursionError
  | S depth' =>
      match h !! stages self with
      | None => Raise TypeError
      | Some [] => Raise IndexError
      | Some (s0 :: _) =>
          match projects cfg !! s0 with
          | Some p => Return p
          | None =>
              match pipelines cfg !! s0 with
              | Some parent => project depth' h parent
              | None => Raise YmpConfigError
              end
          end
      end
  end.

(** [Pipeline.get_path(suffix=None)] *)
Definition get_path (self : Pipeline) (suffix : option string) : string :=
  name self.

(** [Pipeline.outputs] *)
Definition outputs (self : Pipeline) : list string :=
  dict_keys (output_map self).

(** *** Vocabulary of the statements *)

(** What one iteration of the loop does to the output map, given the
    result of the stage lookup. *)
Definition add_stage (found : option Stage) (path : string) (output_map : dict)
  : dict :=
  match found with
  | None => output_map
  | Some stage => record_outputs stage path output_map
  end.

(** The loop as a function of the names still to be processed, last name
    first. *)
Fixpoint merge (stack : StageStack) (rnames : list string) (output_map : dict)
  : dict :=
  match rnames with
  | [] => output_map
  | n :: rnames' =>
      merge stack rnames'
        (add_stage (_find_stage stack n) (join "." (rev rnames)) output_map)
  end.

(** The filenames declared by the stage a name resolves to, if any. *)
Definition resolved_outputs (stack : StageStack) (n : string) : list string :=
  match _find_stage stack n with
  | Some stage => stage_outputs stage
  | None => []
  end.

(** All filenames declared by the resolvable stages of a chain. *)
Definition declared (stack : StageStack) (l : list string) : list string :=
  l ≫= resolved_outputs stack.

(** The path of the first name, going from the end of the chain, whose
    stage declares [f]. *)
Fixpoint first_decl (stack : StageStack) (rnames : list string) (f : string)
  : option string :=
  match rnames with
  | [] => None
  | n :: rnames' =>
      if bool_decide (f ∈ resolved_outputs stack n)
      then Some (join "." (rev rnames))
      else first_decl stack rnames' f
  end.

(** The memo table and the instances constructed so far agree: every
    entry is filed under its own valid chain key and was constructed in
    this session, every constructed instance is the entry of its key, and
    instances are numbered in order of construction. *)
Definition session_wf (σ : Session) : Prop :=
  (∀ k s, stacks σ !! k = Some s →
          stack_name s = k ∧ valid_chain_key k = true ∧ s ∈ created σ)
  ∧ (∀ s, s ∈ created σ → stacks σ !! stack_name s = Some s)
  ∧ (∀ i s, created σ !! i = Some s → stack_id s = i).

(** What happens to a session during its lifetime: stacks are requested
    and pipelines are constructed. *)
Inductive call :=
  | CallGet (path : string)
  | CallPipeline (name : string) (stages_cfg : loc).

Definition after_call (σ : Session) (c : call) : Session :=
  match c with
  | CallGet path => (StageStack_get path σ).2
  | CallPipeline name stages_cfg => (Pipeline_init name stages_cfg σ).2
  end.

(** The session after a sequence of calls. *)
Definition after_calls (cs : list call) (σ : Session) : Session :=
  foldl after_call σ cs.

(** [self] hands the resolution of its project over to [parent]: its
    first stage name is not a project and names the pipeline [parent]. *)
Definition delegates (h : list (list string)) (self parent : Pipeline) : Prop :=
  ∃ s0 rest, h !! stages self = Some (s0 :: rest)
             ∧ projects cfg !! s0 = None
             ∧ pipelines cfg !! s0 = Some parent.

End Pipelines.

(** ** Concrete configurations used as examples *)

(** Modelled from the spec: the stage registry is addressable by name
    lookup; this is the lookup used where a concrete [_find_stage] is
    needed. *)
Definition registry_find_stage (cfg : Config) (_ : StageStack) (n : string)
  : option Stage :=
  stage_registry cfg !! n.

Definition st_import : Stage := mkStage "import" ["reads.fastq"].
Definition st_trim : Stage := mkStage "trim_bbmap" ["reads.fastq"; "log.txt"].
Definition project1 : Project := mkProject "proj1".

(** The scenario of the specification: two stages and one project. *)
Definition toy_cfg : Config :=
  mkConfig {["proj1" := project1]} ∅
           (<["import" := st_import]> {["trim_bbmap" := st_trim]}).

(** A session whose only list object is the chain of the scenario. *)
Definition toy_session : Session :=
  mkSession [["proj1"; "import"; "trim_bbmap"]] ∅ [].

(** A pipeline that names itself as its root (list object 0 is its
    chain). *)
Definition loop_pipeline : Pipeline :=
  mkPipeline "loop" 0
    (mkStageStack 0 "loop.import" ["loop"; "import"])
    [("reads.fastq", "loop.import")].

Definition loop_cfg : Config :=
  mkConfig ∅ {["loop" := loop_pipeline]} {["import" := st_import]}.

Definition loop_heap : list (list string) := [["loop"; "import"]].

(** A pipeline rooted in a pipeline rooted in a project: [qc] is the
    chain of list object 0, [report] the chain of list object 1. *)
Definition st_fastqc : Stage := mkStage "qc_fastqc" ["report.zip"].

Definition qc_pipeline : Pipeline :=
  mkPipeline "qc" 0
    (mkStageStack 0 "proj1.import.trim_bbmap" ["proj1"; "import"; "trim_bbmap"])
    [("reads.fastq", "proj1.import.trim_bbmap");
     ("log.txt", "proj1.import.trim_bbmap")].

Definition report_pipeline : Pipeline :=
  mkPipeline "report" 1
    (mkStageStack 1 "qc.qc_fastqc" ["qc"; "qc_fastqc"])
    [("report.zip", "qc.qc_fastqc")].

Definition nested_cfg : Config :=
  mkConfig {["proj1" := project1]}
           (<["qc" := qc_pipeline]> {["report" := report_pipeline]})
           (<["import" := st_import]>
              (<["trim_bbmap" := st_trim]> {["qc_fastqc" := st_fastqc]})).

Definition nested_heap : list (list string) :=
  [["proj1"; "import"; "trim_bbmap"]; ["qc"; "qc_fastqc"]].

(** A chain in which a stage that is not the last one owns a filename
    that an earlier stage declares too. *)
Definition shadow_session : Session :=
  mkSession [["proj1"; "import"; "trim_bbmap"; "qc_fastqc"]] ∅ [].

(** A session with an empty chain. *)
Definition empty_chain_session : Session := mkSession [[]] ∅ [].

(** A chain whose last name is a grouping, which no stage claims. *)
Definition grouped_session : Session :=
  mkSession [["proj1"; "import"; "by_ID"]] ∅ [].

(** ** More of the pipeline module *)

(** [Pipeline.stamp]: the directory of the pipeline, an attribute kept by
    the base class (not among the sources, hence the parameter [dir]),
    followed by the name of the marker file. *)
Definition stamp (dir : Pipeline → string) (self : Pipeline) : string :=
  dir self +:+ "/all_targets.stamp".

(** Adding a key to the keys of an insertion-ordered dictionary: a key
    that is there stays where it is, a new one goes to the end. *)
Definition add_key (keys : list string) (k : string) : list string :=
  if bool_decide (k ∈ keys) then keys else keys ++ [k].

(** The first occurrences of the elements of a list, in order. *)
Definition keep_first (l : list string) : list string := foldl add_key [] l.

(** A chain with a stage between two declarations of the same file. *)
Definition long_session : Session :=
  mkSession [["proj1"; "trim_bbmap"; "qc_fastqc"; "import"]] ∅ [].

(** A third level of nesting on top of [nested_cfg]: [summary] is rooted
    in [report]; list object 2 is its chain. *)
Definition summary_pipeline : Pipeline :=
  mkPipeline "summary" 2
    (mkStageStack 2 "report.import" ["report"; "import"])
    [("reads.fastq", "report.import")].

Definition deep_heap : list (list string) :=
  [["proj1"; "import"; "trim_bbmap"]; ["qc"; "qc_fastqc"]; ["report"; "import"]].

(** A pipeline rooted in a pipeline whose chain starts with a stage:
    [orphan] (list object 0) starts with [import], [child] (list object 1)
    with [orphan]. *)
Definition orphan_pipeline : Pipeline :=
  mkPipeline "orphan" 0
    (mkStageStack 0 "import.trim_bbmap" ["import"; "trim_bbmap"])
    [("reads.fastq", "import.trim_bbmap"); ("log.txt", "import.trim_bbmap")].

Definition child_pipeline : Pipeline :=
  mkPipeline "child" 1
    (mkStageStack 1 "orphan.qc_fastqc" ["orphan"; "qc_fastqc"])
    [("report.zip", "orphan.qc_fastqc")].

Definition orphan_cfg : Config :=
  mkConfig {["proj1" := project1]}
           (<["orphan" := orphan_pipeline]> {["child" := child_pipeline]})
           (<["import" := st_import]>
              (<["trim_bbmap" := st_trim]> {["qc_fastqc" := st_fastqc]})).

Definition orphan_heap : list (list string) :=
  [["import"; "trim_bbmap"]; ["orphan"; "qc_fastqc"]].

(** A pipeline rooted in a pipeline with no stages at all. *)
Definition hollow_pipeline : Pipeline :=
  mkPipeline "hollow" 0 (mkStageStack 0 "" []) [].

Definition hollow_cfg : Config :=
  mkConfig ∅ (<["hollow" := hollow_pipeline]> {["child" := child_pipeline]}) ∅.

Definition hollow_heap : list (list string) := [[]; ["hollow"; "qc_fastqc"]].

(** ** The documentation extension (ymp/sphinxext.py) *)

(** Exceptions of this part of the code. [SubscriptError] is the
    [IndexError] of [node[0]] on a node without children, [ConcatError]
    the [TypeError] of ["#" + None], [NotIterableError] the [TypeError] of
    a [for] over [None]. *)
Inductive pyerr :=
  | KeyError
  | ValueError
  | AttributeError
  | SubscriptError
  | ConcatError
  | NotIterableError.

(** The result of a call, or the exception it raised; what a call had
    changed before raising is not kept, except where the model returns
    the state beside the exception. *)
Inductive res (A : Type) :=
  | Ok (a : A)
  | Err (e : pyerr).
Arguments Ok {A} a.
Arguments Err {A} e.

(** Insertion-ordered dictionaries with any keys: a key occurs once,
    [items()] is the list itself. *)
Abbreviation odict K V := (list (K * V)) (only parsing).

Fixpoint odict_get `{EqDecision K} {V} (k : K) (d : odict K V) : option V :=
  match d with
  | [] => None
  | (k', v) :: d' => if decide (k = k') then Some v else odict_get k d'
  end.

(** [d[k] = v] *)
Fixpoint odict_set `{EqDecision K} {V} (k : K) (v : V) (d : odict K V)
  : odict K V :=
  match d with
  | [] => [(k, v)]
  | (k', v') :: d' =>
      if decide (k = k') then (k, v) :: d' else (k', v') :: odict_set k v d'
  end.

(** [del d[k]]; [None] stands for the [KeyError] of a missing key. *)
Fixpoint odict_del `{EqDecision K} {V} (k : K) (d : odict K V)
  : option (odict K V) :=
  match d with
  | [] => None
  | (k', v') :: d' =>
      if decide (k = k') then Some d' else cons (k', v') <$> odict_del k d'
  end.

(** What Python guarantees of a dictionary. *)
Definition odict_wf {K V} (d : odict K V) : Prop := NoDup d.*1.

(** The table [data['objects']] of the domain:
    [(type, name) -> (docname, labelid)]. *)
Abbreviation objkey := (string * string)%type (only parsing).
Abbreviation objval := (string * string)%type (only parsing).

(** [self.data] of the domain, as far as the code reads it: the value
    under ['objects'], if the key is there. *)
Definition domain_data : Type := option (odict objkey objval).

(** [for key in toremove: del objects[key]] *)
Fixpoint del_all (toremove : list objkey) (objects : odict objkey objval)
  : res (odict objkey objval) :=
  match toremove with
  | [] => Ok objects
  | key :: toremove' =>
      match odict_del key objects with
      | None => Err KeyError
      | Some objects' => del_all toremove' objects'
      end
  end.

(** [SnakemakeDomain.clear_doc] *)
Definition clear_doc (docname : string) (data : domain_data) : res domain_data :=
  match data with
  | None => Ok None
  | Some objects =>
      let toremove := (filter (λ kv, kv.2.1 = docname) objects).*1 in
      match del_all toremove objects with
      | Ok objects' => Ok (Some objects')
      | Err e => Err e
      end
  end.

(** The node built by [sphinx.util.nodes.make_refnode], kept as the
    arguments of the call. *)
Record refnode (Builder Node : Type) := make_refnode {
  ref_builder : Builder;
  ref_fromdocname : string;
  ref_todocname : string;
  ref_targetid : string;
  ref_child : Node;
  ref_title : string
}.
Arguments make_refnode {Builder Node}.
Arguments ref_builder {Builder Node}.
Arguments ref_fromdocname {Builder Node}.
Arguments ref_todocname {Builder Node}.
Arguments ref_targetid {Builder Node}.
Arguments ref_child {Builder Node}.
Arguments ref_title {Builder Node}.

(** The [for objtype in objtypes:] loop of [resolve_xref]. *)
Fixpoint resolve_in {Builder Node} (objects : odict objkey objval)
    (builder : Builder) (fromdocname target : string) (contnode : Node)
    (objtypes : list string) : option (refnode Builder Node) :=
  match objtypes with
  | [] => None
  | objtype :: objtypes' =>
      match odict_get (objtype, target) objects with
      | Some v =>
          Some (make_refnode builder fromdocname v.1 v.2 contnode
                  (target +:+ " " +:+ objtype))
      | None => resolve_in objects builder fromdocname target contnode objtypes'
      end
  end.

(** [SnakemakeDomain.resolve_xref]; [objtypes_for_role] is the method of
    the Sphinx base class, a dictionary lookup that gives [None] for a
    [typ] that is no role, on which the [for] fails; [env] and [node] are
    not used by the code. *)
Definition resolve_xref {Builder Node}
    (objtypes_for_role : string → option (list string))
    (data : domain_data) (fromdocname : string) (builder : Builder)
    (typ target : string) (contnode : Node)
  : res (option (refnode Builder Node)) :=
  match data with
  | None => Err KeyError
  | Some objects =>
      match objtypes_for_role typ with
      | None => Err NotIterableError
      | Some objtypes =>
          Ok (resolve_in objects builder fromdocname target contnode objtypes)
      end
  end.

(** What the directives append to the signature node: the annotation, the
    name, and the link to the highlighted source (an [only] node that has
    a [reference] with this [refuri] around the inline text [[source]]). *)
Inductive signode_child :=
  | desc_annotation (rawsource text : string)
  | desc_name (rawsource text : string)
  | source_link (refuri : string).

(** The signature node: its children and the attributes the directives
    set. *)
Record signode := mk_signode {
  sn_children : list signode_child;
  sn_names : list string;
  sn_ids : list string;
  sn_first : option bool
}.

(** The state a directive works on: its own attributes ([objtype],
    [names], [lineno], [options['source']]), the ids of the document, and
    of the build environment the document name, the objects table of the
    domain, the set [_snakefiles] if the attribute exists, the warnings
    issued and the entries of the index node. *)
Record directive := mk_directive {
  d_objtype : string;
  d_names : list string;
  d_lineno : nat;
  d_source : option string;
  d_document_ids : gset string;
  d_docname : string;
  d_objects : domain_data;
  d_snakefiles : option (gset string);
  d_warnings : list (string * string);
  d_index : list (string * string * string * string * option string)
}.

(** [YmpObjectDescription.add_source_link] *)
Definition add_source_link (self : directive) (sn : signode)
  : res (directive * signode) :=
  match d_source self with
  | None => Err KeyError
  | Some source =>
      match split ":" source with
      | [filename; lineno] =>
          let snakefiles := default ∅ (d_snakefiles self) ∪ {[filename]} in
          Ok (mk_directive (d_objtype self) (d_names self) (d_lineno self)
                (d_source self) (d_document_ids self) (d_docname self)
                (d_objects self) (Some snakefiles) (d_warnings self)
                (d_index self),
              mk_signode
                (sn_children sn ++
                   [source_link ("_snakefiles/" +:+ filename +:+ ".html#line-"
                                 +:+ lineno)])
                (sn_names sn) (sn_ids sn) (sn_first sn))
      | _ => Err ValueError
      end
  end.

(** [YmpObjectDescription.handle_signature]; [typename] is the class
    attribute of the directive and [ws_sub] is [ws_re.sub('', _)], the
    substitution of the white-space pattern of Sphinx, taken as it is. The
    directive and the signature node are returned as the call leaves
    them, also when it raises. *)
Definition handle_signature (ws_sub : string → string) (typename : string)
    (self : directive) (sig : string) (sn : signode)
  : directive * signode * res string :=
  let sn1 :=
    mk_signode
      (sn_children sn ++ [desc_annotation typename (typename +:+ " ")]
         ++ [desc_name sig sig])
      (sn_names sn) (sn_ids sn) (sn_first sn) in
  match d_source self with
  | Some _ =>
      match add_source_link self sn1 with
      | Ok (self', sn2) => (self', sn2, Ok (ws_sub sig))
      | Err e => (self, sn1, Err e)
      end
  | None => (self, sn1, Ok (ws_sub sig))
  end.

(** [YmpObjectDescription.get_index_text] *)
Definition get_index_text (typename name : string) : string :=
  name +:+ " (" +:+ typename +:+ ")".

(** The warning of [add_target_and_index]; [doc2path] is the method of
    the build environment. *)
Definition duplicate_warning (doc2path : string → string)
    (objtype name other : string) (lineno : nat) : string :=
  "duplicate description of " +:+ objtype +:+ " " +:+ name
  +:+ ", other instance in " +:+ doc2path other +:+ ":" +:+ pretty lineno.

(** [YmpObjectDescription.add_target_and_index]. Registering the node
    with the document ([note_explicit_target], docutils) enters the ids of
    the node into the ids of the document. *)
Definition add_target_and_index (doc2path : string → string)
    (self : directive) (name : string) (sn : signode)
  : res (directive * signode) :=
  let targetname := join "-" [d_objtype self; name] in
  let registered :=
    if bool_decide (targetname ∈ d_document_ids self) then Ok (self, sn)
    else
      let sn' :=
        mk_signode (sn_children sn) (sn_names sn ++ [targetname])
          (sn_ids sn ++ [targetname])
          (Some (bool_decide (d_names self = []))) in
      let ids' := d_document_ids self ∪ list_to_set (sn_ids sn') in
      match d_objects self with
      | None => Err KeyError
      | Some objects =>
          let key := (d_objtype self, name) in
          let warnings :=
            match odict_get key objects with
            | Some other =>
                d_warnings self ++
                  [(d_docname self,
                    duplicate_warning doc2path (d_objtype self) name other.1
                      (d_lineno self))]
            | None => d_warnings self
            end in
          Ok (mk_directive (d_objtype self) (d_names self) (d_lineno self)
                (d_source self) ids' (d_docname self)
                (Some (odict_set key (d_docname self, targetname) objects))
                (d_snakefiles self) warnings (d_index self),
              sn')
      end in
  match registered with
  | Err e => Err e
  | Ok (self', sn') =>
      let indextext := get_index_text (d_objtype self') name in
      if bool_decide (indextext = "") then Ok (self', sn')
      else
        Ok (mk_directive (d_objtype self') (d_names self') (d_lineno self')
              (d_source self') (d_document_ids self') (d_docname self')
              (d_objects self') (d_snakefiles self') (d_warnings self')
              (d_index self' ++ [("single", indextext, targetname, "", None)]),
            sn')
  end.

(** How often a character occurs in a string. *)
Fixpoint occurrences (c : ascii) (s : string) : nat :=
  match s with
  | EmptyString => 0
  | String a s' => (if Ascii.eqb a c then 1 else 0) + occurrences c s'
  end.

(** The directive with the index entry of one more object. *)
Definition with_index_entry (self : directive) (objtype name : string)
  : directive :=
  mk_directive (d_objtype self) (d_names self) (d_lineno self) (d_source self)
    (d_document_ids self) (d_docname self) (d_objects self) (d_snakefiles self)
    (d_warnings self)
    (d_index self ++
       [("single", name +:+ " (" +:+ objtype +:+ ")", join "-" [objtype; name],
         "", None)]).

(** [objtypes_for_role] for the class attribute [object_types] of the
    domain: the role [rule] is for rules, the role [stage] for stages, and
    there is no other role. *)
Definition sm_objtypes_for_role (typ : string) : option (list string) :=
  if decide (typ = "rule") then Some ["rule"]
  else if decide (typ = "stage") then Some ["stage"]
  else None.

(** An objects table with two documents. *)
Definition sm_objects : odict objkey objval :=
  [(("rule", "bbmap_trim"), ("rules", "rule-bbmap_trim"));
   (("stage", "trim_bbmap"), ("stages", "stage-trim_bbmap"));
   (("rule", "bbmap_map"), ("rules", "rule-bbmap_map"))].

(** The directive [sm:stage:: trim_bbmap] met again, in the document
    [pipelines]. *)
Definition sm_stage_directive : directive :=
  mk_directive "stage" [] 12 (Some "rules/bbmap.rules:12") ∅ "pipelines"
    (Some sm_objects) None [] [].

(** The directive [sm:rule:: bbmap_dedup], not described before. *)
Definition sm_rule_directive : directive :=
  mk_directive "rule" ["bbmap_map"] 40 None {["rule-bbmap_map"]} "rules"
    (Some sm_objects) (Some {["rules/bbmap.rules"]}) [] [].

Definition sm_signode : signode := mk_signode [] [] [] None.

(** The same directive with a source that has a drive letter, hence two
    colons. *)
Definition sm_drive_directive : directive :=
  mk_directive "stage" [] 12 (Some "C:/rules/bbmap.rules:12") ∅ "pipelines"
    (Some sm_objects) None [] [].

(** ** The tables of test targets (tests/data.py) *)

(** The module-level tables. *)
Record tables := mk_tables {
  data_types : list string;
  dataset_map : odict string (list string);
  target_map : odict string (odict string string)
}.

Definition data_tables : tables :=
  mk_tables
    ["any"; "metagenome"; "amplicon"]
    [("any", ["toy"; "mpic"]);
     ("metagenome", ["toy"]);
     ("large", ["ibd"]);
     ("amplicon", ["mpic"])]
    [("any",
      [("import", "{}/all");
       ("correct_bbmap", "{}.correct_bbmap/all");
       ("trim_bbmap", "{}.trim_bbmapAQ10/all");
       ("filter_bbmap", "{}.ref_phiX.remove_bbmap/all");
       ("dedup_bbmap", "{}.dedup_bbmap/all");
       ("fastqc", "{}.qc_fastqc/all");
       ("multiqc", "reports/{}.fastqc.html");
       ("trimmomaticT32", "{}.trimmomaticT32/all");
       ("sickle", "{}.sickle/all");
       ("sickleQ10", "{}.sickleQ10/all");
       ("sickleL10", "{}.sickleL10/all");
       ("sickleQ10L10", "{}.sickleQ10L10/all")]);
     ("metagenome",
      [("assemble_separate_mh", "{}.by_ID.assemble_megahit/all");
       ("assemble_grouped_mh", "{}.by_Subject.assemble_megahit/all");
       ("assemble_joined_mh", "{}.assemble_megahit/all");
       ("assemble_separate_sp", "{}.by_ID.sp/all");
       ("assemble_grouped_sp", "{}.by_Subject.sp/all");
       ("assemble_joined_sp", "{}.sp/all");
       ("metaquast_mh", "reports/{}.assemble_megahit.mq.html");
       ("metaquast_sp", "reports/{}.sp.mq.html");
       ("map_bbmap_separate", "{}.by_ID.assemble_megahit.map_bbmap/all");
       ("map_bbmap_grouped", "{}.by_Subject.assemble_megahit.map_bbmap/all");
       ("map_bbmap_joined", "{}.assemble_megahit.map_bbmap/all");
       ("map_bowtie2_separate", "{}.by_ID.assemble_megahit.map_bowtie2/all");
       ("map_bowtie2_grouped", "{}.by_Subject.assemble_megahit.map_bowtie2/all");
       ("map_bowtie2_joined", "{}.assemble_megahit.map_bowtie2/all");
       ("map_bbmap_reference", "{}.ref_genome.map_bbmap/all");
       ("map_bowtie2_reference", "{}.ref_genome.map_bowtie2/all")]);
     ("amplicon",
      [("bbduk_primer", "{}.primermatch/all")])].

(** Tables in which the target [fastqc] is listed under two types, with
    different paths. *)
Definition overlap_tables : tables :=
  mk_tables
    ["any"; "metagenome"]
    [("any", ["toy"]); ("metagenome", ["toy"]); ("large", [])]
    [("any",
      [("import", "{}/all");
       ("fastqc", "{}.qc_fastqc/all")]);
     ("metagenome",
      [("fastqc", "reports/{}.fastqc.html");
       ("assemble_joined_mh", "{}.assemble_megahit/all")]);
     ("amplicon",
      [("bbduk_primer", "{}.primermatch/all")])].

(** [d.update(other)] *)
Definition odict_update {V} (d other : odict string V) : odict string V :=
  foldl (λ acc kv, odict_set kv.1 kv.2 acc) d other.

(** [targets]: the maps of all target types merged, in the order of
    [target_map]. *)
Definition targets (T : tables) : odict string string :=
  foldl (λ acc tm, odict_update acc tm.2) [] (target_map T).

(** A [pytest.param]: the values and the id. *)
Record param := mk_param {
  p_values : string * string * string;
  p_id : string
}.

(** Collecting what nested [for] clauses yield, up to the first
    exception. *)
Fixpoint for_each {A B} (f : A → res (list B)) (l : list A) : res (list B) :=
  match l with
  | [] => Ok []
  | x :: l' =>
      match f x with
      | Err e => Err e
      | Ok ys =>
          match for_each f l' with
          | Err e => Err e
          | Ok zs => Ok (ys ++ zs)
          end
      end
  end.

(** [d[k]] *)
Definition getitem `{EqDecision K} {V} (k : K) (d : odict K V) : res V :=
  match odict_get k d with
  | Some v => Ok v
  | None => Err KeyError
  end.

(** What the innermost clause of [get_targets] yields for one
    combination: the conditions in their order, then the parameter. *)
Definition target_param (T : tables) (large : bool)
    (exclude_targets : list string) (dtype dataset target : string)
  : res (list param) :=
  match
    (if large then Ok true
     else match getitem "large" (dataset_map T) with
          | Ok ll => Ok (bool_decide (dataset ∉ ll))
          | Err e => Err e
          end)
  with
  | Err e => Err e
  | Ok false => Ok []
  | Ok true =>
      if bool_decide (target ∉ exclude_targets) then
        match getitem dtype (target_map T) with
        | Err e => Err e
        | Ok tm =>
            match getitem target tm with
            | Err e => Err e
            | Ok path =>
                Ok [mk_param (dataset, path, dataset)
                      (join "-" [dataset; target])]
            end
        end
      else Ok []
  end.

(** [get_targets(large, exclude_targets)]: the generator as the list it
    yields, or the exception raised while it is consumed. *)
Definition get_targets (T : tables) (large : bool)
    (exclude_targets : list string) : res (list param) :=
  for_each (λ dtype,
    match getitem dtype (dataset_map T) with
    | Err e => Err e
    | Ok datasets =>
        for_each (λ dataset,
          match getitem dtype (target_map T) with
          | Err e => Err e
          | Ok tm =>
              for_each (target_param T large exclude_targets dtype dataset)
                tm.*1
          end) datasets
    end) (data_types T).

(** *** Entries of the table of contents (DomainTocTreeCollector) *)

(** What [node[0]] is: nothing (the node has no children), a text node
    (which has no [get]), an element off the chain with its ids, or the
    node below on the chain, the one the walk came from. *)
Inductive first_child :=
  | no_child
  | text_child
  | element_child (ids : list string)
  | node_below.

(** A node of the document as [get_ref] sees it: its ids and its first
    child. *)
Record tnode := mk_tnode {
  tn_ids : list string;
  tn_first : first_child
}.

(** [node[0].get('ids')]. The walk leaves a node only if it has no ids,
    so the node below has none. *)
Definition first_child_ids (c : first_child) : res (list string) :=
  match c with
  | no_child => Err SubscriptError
  | text_child => Err AttributeError
  | element_child ids => Ok ids
  | node_below => Ok []
  end.

(** [DomainTocTreeCollector.get_ref(node)], on the chain made of the node
    and its ancestors, the node first and the root last ([node.parent] of
    the root is [None]). Returns the value returned and the chain with
    the ids the call has assigned. *)
Fixpoint get_ref (chain : list tnode) : res (option string * list tnode) :=
  match chain with
  | [] => Ok (None, [])
  | node :: parents =>
      match tn_ids node with
      | i :: _ => Ok (Some i, chain)
      | [] =>
          match first_child_ids (tn_first node) with
          | Err e => Err e
          | Ok (i :: _) =>
              Ok (Some (i +:+ "-tocentry"),
                  mk_tnode [i +:+ "-tocentry"] (tn_first node) :: parents)
          | Ok [] =>
              match get_ref parents with
              | Ok (r, parents') => Ok (r, node :: parents')
              | Err e => Err e
              end
          end
      end
  end.

(** A node that gives no reference: it has no id and its first child is
    an element without ids. *)
Definition no_ref (n : tnode) : Prop :=
  tn_ids n = [] ∧ first_child_ids (tn_first n) = Ok [].

(** An entry of the table of contents: the list item around the
    paragraph around the reference, kept as the attributes of the
    reference and the names in it. *)
Record toc_item := mk_toc_item {
  ti_refuri : string;
  ti_anchorname : string;
  ti_heading : list string
}.

(** The children of a node of the table of contents: bullet lists, and
    others. *)
Inductive toc_child :=
  | bullet_list (items : list toc_item)
  | toc_other (tagname : string).

Definition is_bullet_list (c : toc_child) : bool :=
  match c with bullet_list _ => true | toc_other _ => false end.

(** The position of the first bullet list among the children. *)
Fixpoint first_bullet_list (children : list toc_child) : option nat :=
  match children with
  | [] => None
  | c :: children' =>
      if is_bullet_list c then Some 0%nat
      else S <$> first_bullet_list children'
  end.

(** [blist.append(item)], [blist] being the child at [i]. *)
Definition append_item (i : nat) (item : toc_item) (children : list toc_child)
  : list toc_child :=
  alter (λ c, match c with
              | bullet_list items => bullet_list (items ++ [item])
              | toc_other t => toc_other t
              end) i children.

(** [DomainTocTreeCollector.toc_insert(docname, tocnode, node, heading)]:
    the children of [tocnode] and the chain of [node] after the call, and
    the exception if one was raised; what was changed before the exception
    stays changed. *)
Definition toc_insert (docname : string) (tocnode : list toc_child)
    (chain : list tnode) (heading : list string)
  : list toc_child * list tnode * option pyerr :=
  let '(tocnode1, blist) :=
    match first_bullet_list tocnode with
    | Some i => (tocnode, i)
    | None => (tocnode ++ [bullet_list []], length tocnode)
    end in
  match get_ref chain with
  | Err e => (tocnode1, chain, Some e)
  | Ok (None, chain') => (tocnode1, chain', Some ConcatError)
  | Ok (Some ref, chain') =>
      (append_item blist (mk_toc_item docname ("#" +:+ ref) heading) tocnode1,
       chain', None)
  end.

(** A description of a stage inside a section: the description has no
    id, its signature (the first child) has one; the section has its
    own. *)
Definition desc_chain : list tnode :=
  [mk_tnode [] (element_child ["stage-trim_bbmap"]);
   mk_tnode ["stages"] (element_child []);
   mk_tnode [] node_below].

(** The table of contents of a document with a title only, and with a
    list of entries already. *)
Definition toc_title_only : list toc_child := [toc_other "compact_paragraph"].

Definition toc_with_list : list toc_child :=
  [toc_other "compact_paragraph";
   bullet_list [mk_toc_item "stages" "#stage-import-tocentry" ["import"]]].

(** ** Dictionaries *)

Lemma dict_mem_spec k d : dict_mem k d = true ↔ is_Some (dict_get k d).
Proof. unfold dict_mem. by rewrite bool_decide_eq_true. Qed.

Lemma dict_get_set f k v d :
  dict_get f (dict_set k v d) = if decide (f = k) then Some v else dict_get f d.
Proof.
  induction d as [|[k' v'] d IH]; simpl.
  - by case_decide.
  - destruct (decide (k = k')) as [->|Hk]; simpl.
    + by destruct (decide (f = k')).
    + rewrite IH. destruct (decide (f = k')) as [->|]; [|done].
      by rewrite decide_False by done.
Qed.

Lemma dict_get_None k d : dict_get k d = None ↔ k ∉ dict_keys d.
Proof.
  unfold dict_keys. induction d as [|[k' v'] d IH]; simpl.
  - split; [intros _; apply not_elem_of_nil | done].
  - rewrite not_elem_of_cons. case_decide; subst.
    + split; [done | by intros [? _]].
    + rewrite IH. tauto.
Qed.

Lemma dict_get_is_Some k d : is_Some (dict_get k d) ↔ k ∈ dict_keys d.
Proof.
  destruct (dict_get k d) eqn:E.
  - split; [intros _ | by eauto].
    destruct (decide (k ∈ dict_keys d)) as [|Hn]; [done|].
    apply dict_get_None in Hn. congruence.
  - apply dict_get_None in E. split; [by intros [? ?] | done].
Qed.

Lemma dict_keys_set_new k v d :
  dict_get k d = None → dict_keys (dict_set k v d) = dict_keys d ++ [k].
Proof.
  unfold dict_keys. induction d as [|[k' v'] d IH]; cbn [dict_get dict_set].
  - done.
  - case_decide; [done|]. intros E. rewrite !fmap_cons, IH by done. done.
Qed.

(** ** One stage's contribution to the output map *)

Lemma dict_get_record_output path om g f :
  dict_get f (record_output path om g) =
  match dict_get f om with
  | Some p => Some p
  | None => if decide (f = g) then Some path else None
  end.
Proof.
  unfold record_output. destruct (dict_mem g om) eqn:E.
  - apply dict_mem_spec in E as [p Hp].
    destruct (dict_get f om) eqn:Ef; [done|].
    case_decide; [congruence | done].
  - rewrite dict_get_set.
    assert (dict_get g om = None) as Hg.
    { destruct (dict_get g om) eqn:Eg; [|done].
      assert (dict_mem g om = true) by (apply dict_mem_spec; rewrite Eg; eauto).
      congruence. }
    case_decide; subst; [by rewrite Hg|]. by destruct (dict_get f om).
Qed.

Lemma dict_keys_record_output_NoDup path om g :
  NoDup (dict_keys om) → NoDup (dict_keys (record_output path om g)).
Proof.
  intros Hnd. unfold record_output. destruct (dict_mem g om) eqn:E; [done|].
  assert (dict_get g om = None) as Hg.
  { destruct (dict_get g om) eqn:Eg; [|done].
    assert (dict_mem g om = true) by (apply dict_mem_spec; rewrite Eg; eauto).
    congruence. }
  rewrite dict_keys_set_new by done.
  apply NoDup_app. split_and!; [done| |apply NoDup_singleton].
  intros x Hx ->%list_elem_of_singleton. by apply dict_get_None in Hg.
Qed.

Lemma dict_get_record_outputs stage path om f :
  dict_get f (record_outputs stage path om) =
  match dict_get f om with
  | Some p => Some p
  | None => if bool_decide (f ∈ stage_outputs stage) then Some path else None
  end.
Proof.
  unfold record_outputs. generalize (stage_outputs stage) as outs.
  intros outs. induction outs as [|g outs IH] using rev_ind; simpl.
  - by destruct (dict_get f om).
  - rewrite foldl_snoc, dict_get_record_output, IH.
    destruct (dict_get f om); [done|].
    assert (f ∈ outs ++ [g] ↔ f ∈ outs ∨ f = g) as Hin
      by (by rewrite elem_of_app, list_elem_of_singleton).
    destruct (decide (f ∈ outs)) as [Ho|Ho].
    + rewrite !bool_decide_eq_true_2; [done | apply Hin; tauto | done].
    + rewrite (bool_decide_eq_false_2 (f ∈ outs)) by done.
      destruct (decide (f = g)) as [Hfg|Hfg].
      * rewrite bool_decide_eq_true_2; [done | apply Hin; tauto].
      * rewrite bool_decide_eq_false_2; [done | rewrite Hin; tauto].
Qed.

Lemma dict_keys_record_outputs_NoDup stage path om :
  NoDup (dict_keys om) → NoDup (dict_keys (record_outputs stage path om)).
Proof.
  unfold record_outputs. generalize (stage_outputs stage) as outs.
  intros outs. revert om.
  induction outs as [|g outs IH]; simpl; [done|].
  intros om Hnd. by apply IH, dict_keys_record_output_NoDup.
Qed.

Section Properties.

Variable cfg : Config.
Variable _find_stage : StageStack → string → option Stage.

(** ** The loop of the constructor *)

Lemma store_same ℓ l σ : heap σ !! ℓ = Some l → store ℓ l σ = σ.
Proof.
  intros H. destruct σ as [h t c]. unfold store; simpl in *.
  by rewrite list_insert_id.
Qed.

Lemma store_store ℓ l l' σ : store ℓ l (store ℓ l' σ) = store ℓ l σ.
Proof. unfold store; simpl. by rewrite list_insert_insert_eq. Qed.

Lemma heap_store_lookup ℓ l l0 σ :
  heap σ !! ℓ = Some l0 → heap (store ℓ l σ) !! ℓ = Some l.
Proof.
  intros H. unfold store; simpl.
  apply list_lookup_insert_eq. by eapply lookup_lt_Some.
Qed.

(** One iteration: the last name is popped and looked up, and the stage
    found, if any, contributes its outputs under the path of the names
    that were still on the list. *)
Lemma while_stage_names_step fuel stack ℓ om σ l n :
  heap σ !! ℓ = Some (l ++ [n]) →
  while_stage_names _find_stage (S fuel) stack ℓ om σ =
  while_stage_names _find_stage fuel stack ℓ
    (add_stage (_find_stage stack n) (join "." (l ++ [n])) om)
    (store ℓ l σ).
Proof.
  intros H. cbn [while_stage_names]. unfold bind at 1, read at 1. rewrite H.
  destruct (l ++ [n]) as [|a k] eqn:E.
  { by destruct l. }
  rewrite <- E in *. unfold bind at 1, pop. rewrite H, last_snoc, removelast_last.
  by destruct (_find_stage stack n).
Qed.

Lemma while_stage_names_nil fuel stack ℓ om σ :
  heap σ !! ℓ = Some [] →
  while_stage_names _find_stage fuel stack ℓ om σ = (Return om, σ).
Proof.
  intros H. destruct fuel; cbn [while_stage_names];
    unfold bind, read; by rewrite H.
Qed.

(** With one unit of fuel per name the loop runs to completion: it
    empties the list it pops from and returns the merged map. *)
Lemma while_stage_names_merge fuel stack ℓ om σ l :
  heap σ !! ℓ = Some l → (length l ≤ fuel)%nat →
  while_stage_names _find_stage fuel stack ℓ om σ =
  (Return (merge _find_stage stack (rev l) om), store ℓ [] σ).
Proof.
  revert om σ l. induction fuel as [|fuel IH]; intros om σ l H Hlen.
  - destruct l; [|simpl in Hlen; lia].
    rewrite while_stage_names_nil, store_same by done. done.
  - destruct l as [|n l _] using rev_ind.
    + rewrite while_stage_names_nil, store_same by done. done.
    + rewrite length_app in Hlen. simpl in Hlen.
      rewrite (while_stage_names_step _ _ _ _ _ l n) by done.
      rewrite (IH _ _ l); [| by eapply heap_store_lookup | lia].
      rewrite store_store, rev_unit. cbn [merge].
      by rewrite <- rev_unit, rev_involutive.
Qed.

(** ** What the merged map holds *)

Lemma dict_get_add_stage stack n path om f :
  dict_get f (add_stage (_find_stage stack n) path om) =
  match dict_get f om with
  | Some p => Some p
  | None =>
      if bool_decide (f ∈ resolved_outputs _find_stage stack n)
      then Some path else None
  end.
Proof.
  unfold add_stage, resolved_outputs. destruct (_find_stage stack n).
  - apply dict_get_record_outputs.
  - destruct (dict_get f om); [done|].
    rewrite bool_decide_eq_false_2; [done | apply not_elem_of_nil].
Qed.

Lemma dict_get_merge stack rnames om f :
  dict_get f (merge _find_stage stack rnames om) =
  match dict_get f om with
  | Some p => Some p
  | None => first_decl _find_stage stack rnames f
  end.
Proof.
  revert om. induction rnames as [|n rnames IH]; intros om.
  - simpl. by destruct (dict_get f om).
  - cbn [merge first_decl]. rewrite IH, dict_get_add_stage.
    destruct (dict_get f om); [done|].
    by destruct (bool_decide _).
Qed.

Lemma dict_keys_merge_NoDup stack rnames om :
  NoDup (dict_keys om) →
  NoDup (dict_keys (merge _find_stage stack rnames om)).
Proof.
  revert om. induction rnames as [|n rnames IH]; intros om Hnd; [done|].
  cbn [merge]. apply IH. unfold add_stage.
  destruct (_find_stage stack n); [|done].
  by apply dict_keys_record_outputs_NoDup.
Qed.

Lemma first_decl_is_Some stack rnames f :
  is_Some (first_decl _find_stage stack rnames f) ↔
  f ∈ declared _find_stage stack (rev rnames).
Proof.
  unfold declared. induction rnames as [|n rnames IH].
  - simpl. split; [by intros [? ?] | by intros ?%elem_of_nil].
  - cbn [first_decl rev]. rewrite bind_app, elem_of_app.
    simpl. rewrite app_nil_r, <- IH.
    destruct (decide (f ∈ resolved_outputs _find_stage stack n)).
    + rewrite bool_decide_eq_true_2 by done. split; eauto.
    + rewrite bool_decide_eq_false_2 by done. tauto.
Qed.

(** Tail wins: the stage at position [i] declares [f] and no later
    position does, so [f] is mapped to the path of the first [i + 1]
    names. *)
Lemma first_decl_last stack l i n f :
  l !! i = Some n →
  f ∈ resolved_outputs _find_stage stack n →
  (∀ j n', i < j → l !! j = Some n' →
           f ∉ resolved_outputs _find_stage stack n') →
  first_decl _find_stage stack (rev l) f = Some (join "." (take (S i) l)).
Proof.
  induction l as [|x l IH] using rev_ind; intros Hi Hf Hlater; [done|].
  rewrite rev_unit. cbn [first_decl]. rewrite <- rev_unit, rev_involutive.
  destruct (decide (i = length l)) as [->|Hne].
  - rewrite list_lookup_middle in Hi by done. injection Hi as ->.
    rewrite bool_decide_eq_true_2 by done.
    rewrite take_ge; [done | rewrite length_app; simpl; lia].
  - assert (i < length l) as Hlt.
    { apply lookup_lt_Some in Hi. rewrite length_app in Hi. simpl in Hi. lia. }
    rewrite lookup_app_l in Hi by done.
    rewrite bool_decide_eq_false_2.
    2:{ apply (Hlater (length l)); [done|]. by rewrite list_lookup_middle. }
    rewrite take_app_le by lia. apply IH; [done..|].
    intros j n' Hj Hn'. apply (Hlater j); [done|].
    rewrite lookup_app_l; [done | by eapply lookup_lt_Some].
Qed.

(** ** The memo table of StageStack *)

Lemma StageStack_get_hit k s σ :
  stacks σ !! k = Some s → StageStack_get cfg k σ = (Return s, σ).
Proof. intros H. unfold StageStack_get. by rewrite H. Qed.

Lemma StageStack_get_new k σ :
  stacks σ !! k = None → valid_chain_key cfg k = true →
  let s := mkStageStack (length (created σ)) k (split "." k) in
  StageStack_get cfg k σ =
  (Return s, mkSession (heap σ) (<[k := s]> (stacks σ)) (created σ ++ [s])).
Proof.
  intros H Hv. unfold StageStack_get, StageStack_new. by rewrite H, Hv.
Qed.

Lemma StageStack_get_invalid k σ :
  stacks σ !! k = None → valid_chain_key cfg k = false →
  StageStack_get cfg k σ = (Raise YmpConfigError, σ).
Proof.
  intros H Hv. unfold StageStack_get, StageStack_new. by rewrite H, Hv.
Qed.

(** The three ways a call can go. *)
Lemma StageStack_get_cases k σ :
  (∃ s, stacks σ !! k = Some s ∧ StageStack_get cfg k σ = (Return s, σ))
  ∨ (stacks σ !! k = None ∧ valid_chain_key cfg k = true
     ∧ StageStack_get cfg k σ =
       (Return (mkStageStack (length (created σ)) k (split "." k)),
        mkSession (heap σ)
          (<[k := mkStageStack (length (created σ)) k (split "." k)]> (stacks σ))
          (created σ ++ [mkStageStack (length (created σ)) k (split "." k)])))
  ∨ (stacks σ !! k = None ∧ valid_chain_key cfg k = false
     ∧ StageStack_get cfg k σ = (Raise YmpConfigError, σ)).
Proof.
  destruct (stacks σ !! k) as [s|] eqn:E.
  - left. exists s. split; [done|]. by apply StageStack_get_hit.
  - right. destruct (valid_chain_key cfg k) eqn:Hv.
    + left. split_and!; [done..|]. by apply StageStack_get_new.
    + right. split_and!; [done..|]. by apply StageStack_get_invalid.
Qed.

Lemma StageStack_get_heap k σ : heap (StageStack_get cfg k σ).2 = heap σ.
Proof.
  destruct (StageStack_get_cases k σ) as [(s & _ & ->)|[(_ & _ & ->)|(_ & _ & ->)]];
    done.
Qed.

(** A successful call leaves its result filed under the key. *)
Lemma StageStack_get_Return k s σ σ' :
  StageStack_get cfg k σ = (Return s, σ') → stacks σ' !! k = Some s.
Proof.
  destruct (StageStack_get_cases k σ) as [(s0 & Hs & ->)|[(_ & _ & ->)|(_ & _ & ->)]];
    intros [= <- <-]; [done|]. simpl. apply lookup_insert_eq.
Qed.

(** Entries are never replaced or dropped. *)
Lemma StageStack_get_keeps k k' s σ :
  stacks σ !! k' = Some s → stacks (StageStack_get cfg k σ).2 !! k' = Some s.
Proof.
  intros H.
  destruct (StageStack_get_cases k σ) as [(s0 & _ & ->)|[(Hn & _ & ->)|(_ & _ & ->)]];
    [done| |done].
  simpl. rewrite lookup_insert_ne; [done | congruence].
Qed.

Lemma StageStack_get_wf k σ :
  session_wf cfg σ → session_wf cfg (StageStack_get cfg k σ).2.
Proof.
  intros (Ht & Hc & Hi).
  destruct (StageStack_get_cases k σ) as [(s0 & _ & ->)|[(Hn & Hv & ->)|(_ & _ & ->)]];
    [done| |done].
  simpl. set (s := mkStageStack _ _ _). split_and!; simpl.
  - intros k' s' [[<- <-]|[Hne H]]%lookup_insert_Some.
    + split_and!; [done..|]. apply elem_of_app. right. by apply list_elem_of_singleton.
    + destruct (Ht _ _ H) as (? & ? & ?). split_and!; [done..|].
      apply elem_of_app. by left.
  - intros s' [Hs'| ->%list_elem_of_singleton]%elem_of_app.
    + rewrite lookup_insert_ne; [by apply Hc|].
      intros Hk. apply Hc in Hs'. rewrite <- Hk in Hs'. congruence.
    + apply lookup_insert_eq.
  - intros i s' H. destruct (decide (i < length (created σ))%nat).
    + rewrite lookup_app_l in H by done. by apply Hi.
    + rewrite lookup_app_r in H by lia.
      destruct (i - length (created σ))%nat as [|] eqn:E; simpl in H; [|done].
      injection H as <-. simpl. lia.
Qed.

Lemma fresh_session_wf h : session_wf cfg (mkSession h ∅ []).
Proof.
  split_and!; simpl.
  - intros k s H. by rewrite lookup_empty in H.
  - intros s H. by apply elem_of_nil in H.
  - intros i s H. by rewrite lookup_nil in H.
Qed.

(** At most one instance per chain key. *)
Lemma session_wf_unique σ a b :
  session_wf cfg σ → a ∈ created σ → b ∈ created σ →
  stack_name a = stack_name b → a = b.
Proof.
  intros (_ & Hc & _) Ha Hb E. apply Hc in Ha, Hb. rewrite E in Ha. congruence.
Qed.

(** ** The constructor as a whole *)

Lemma Pipeline_init_unfold nm ℓ σ l :
  heap σ !! ℓ = Some l →
  Pipeline_init cfg _find_stage nm ℓ σ =
  match StageStack_get cfg (join "." l) σ with
  | (Return s, σ1) =>
      (Return (mkPipeline nm ℓ s (merge _find_stage s (rev l) [])),
       mkSession (heap σ ++ [[]]) (stacks σ1) (created σ1))
  | (Raise e, σ1) => (Raise e, σ1)
  | (OutOfFuel, σ1) => (OutOfFuel, σ1)
  end.
Proof.
  intros H. unfold Pipeline_init. unfold bind at 1, read at 1. rewrite H.
  unfold bind at 1. pose proof (StageStack_get_heap (join "." l) σ) as Hh.
  destruct (StageStack_get cfg (join "." l) σ) as [[s|e|] σ1]; [|done..].
  simpl in Hh. unfold bind at 1, new_list at 1. unfold bind.
  rewrite (while_stage_names_merge _ _ _ _ _ l); simpl.
  - rewrite Hh. unfold store; simpl.
    by rewrite insert_app_r_alt, Nat.sub_diag by done.
  - by rewrite list_lookup_middle.
  - done.
Qed.

Lemma Pipeline_init_Return nm ℓ σ l p σ' :
  heap σ !! ℓ = Some l →
  Pipeline_init cfg _find_stage nm ℓ σ = (Return p, σ') →
  ∃ s σ1, StageStack_get cfg (join "." l) σ = (Return s, σ1)
          ∧ p = mkPipeline nm ℓ s (merge _find_stage s (rev l) [])
          ∧ σ' = mkSession (heap σ ++ [[]]) (stacks σ1) (created σ1).
Proof.
  intros H. rewrite (Pipeline_init_unfold _ _ _ l) by done.
  destruct (StageStack_get cfg (join "." l) σ) as [[s|e|] σ1]; [|done..].
  intros [= <- <-]. by exists s, σ1.
Qed.

(** Constructing a pipeline keeps the memo table and the constructed
    instances in agreement. *)
Lemma Pipeline_init_wf nm ℓ σ :
  session_wf cfg σ → session_wf cfg (Pipeline_init cfg _find_stage nm ℓ σ).2.
Proof.
  intros Hwf. destruct (heap σ !! ℓ) as [l|] eqn:H.
  - rewrite (Pipeline_init_unfold _ _ _ l) by done.
    pose proof (StageStack_get_wf (join "." l) σ Hwf) as Hwf1.
    by destruct (StageStack_get cfg (join "." l) σ) as [[s|e|] σ1].
  - unfold Pipeline_init. unfold bind at 1, read at 1. by rewrite H.
Qed.

Lemma Pipeline_init_keeps nm ℓ k s σ :
  stacks σ !! k = Some s →
  stacks (Pipeline_init cfg _find_stage nm ℓ σ).2 !! k = Some s.
Proof.
  intros Hk. destruct (heap σ !! ℓ) as [l|] eqn:H.
  - rewrite (Pipeline_init_unfold _ _ _ l) by done.
    pose proof (StageStack_get_keeps (join "." l) k s σ Hk) as Hk1.
    by destruct (StageStack_get cfg (join "." l) σ) as [[s'|e|] σ1].
  - unfold Pipeline_init. unfold bind at 1, read at 1. by rewrite H.
Qed.

Lemma after_calls_keeps cs k s σ :
  stacks σ !! k = Some s →
  stacks (after_calls cfg _find_stage cs σ) !! k = Some s.
Proof.
  unfold after_calls. revert σ.
  induction cs as [|c cs IH]; intros σ H; [done|].
  simpl. apply IH. destruct c as [path|nm ℓ]; simpl.
  - by apply StageStack_get_keeps.
  - by apply Pipeline_init_keeps.
Qed.

Lemma after_calls_wf cs σ :
  session_wf cfg σ → session_wf cfg (after_calls cfg _find_stage cs σ).
Proof.
  unfold after_calls. revert σ.
  induction cs as [|c cs IH]; intros σ H; [done|].
  simpl. apply IH. destruct c as [path|nm ℓ]; simpl.
  - by apply StageStack_get_wf.
  - by apply Pipeline_init_wf.
Qed.

(** ** Output map *)

(** C1. The output map is merged tail first and an entry, once made, is
    never replaced: when the stage at position [i] of the chain declares
    the filename [f] and no stage at a later position does, the
    constructed pipeline maps [f] to the path of the first [i + 1] names
    of the chain, whatever earlier stages declare. *)
Theorem output_map_tail_wins nm ℓ σ l p σ' i n stage f :
  heap σ !! ℓ = Some l →
  Pipeline_init cfg _find_stage nm ℓ σ = (Return p, σ') →
  l !! i = Some n →
  _find_stage (stagestack p) n = Some stage →
  f ∈ stage_outputs stage →
  (∀ j n' stage', (i < j)%nat → l !! j = Some n' →
       _find_stage (stagestack p) n' = Some stage' →
       f ∉ stage_outputs stage') →
  dict_get f (output_map p) = Some (join "." (take (S i) l)).
Proof.
  intros H Hinit Hi Hn Hf Hlater.
  destruct (Pipeline_init_Return _ _ _ _ _ _ H Hinit) as (s & σ1 & _ & -> & _).
  simpl in *. rewrite dict_get_merge. simpl.
  apply first_decl_last with n; [done| |].
  - unfold resolved_outputs. by rewrite Hn.
  - intros j n' Hj Hn'. unfold resolved_outputs.
    destruct (_find_stage s n') as [stage'|] eqn:E; [|apply not_elem_of_nil].
    by apply (Hlater j n').
Qed.

(** C7. A position whose stage lookup is negative is skipped: the
    iteration that pops it leaves the output map as it was and the loop
    goes on with the names before it, runs to completion without raising,
    keeps every entry it started with, and gains keys only from the stages
    the remaining names resolve to. *)
Theorem unresolved_stage_skipped fuel stack ℓ om σ l n :
  heap σ !! ℓ = Some (l ++ [n]) →
  _find_stage stack n = None →
  (length l ≤ fuel)%nat →
  while_stage_names _find_stage (S fuel) stack ℓ om σ =
    while_stage_names _find_stage fuel stack ℓ om (store ℓ l σ)
  ∧ ∃ om',
      while_stage_names _find_stage (S fuel) stack ℓ om σ =
        (Return om', store ℓ [] σ)
      ∧ (∀ f path, dict_get f om = Some path → dict_get f om' = Some path)
      ∧ (∀ f, f ∈ dict_keys om' ↔
              f ∈ dict_keys om ∨ f ∈ declared _find_stage stack l).
Proof.
  intros H Hn Hlen.
  assert (while_stage_names _find_stage (S fuel) stack ℓ om σ =
          while_stage_names _find_stage fuel stack ℓ om (store ℓ l σ)) as Hstep.
  { rewrite (while_stage_names_step _ _ _ _ _ l n) by done. by rewrite Hn. }
  split; [done|]. rewrite Hstep.
  rewrite (while_stage_names_merge _ _ _ _ _ l);
    [| by eapply heap_store_lookup | done].
  rewrite store_store. eexists. split; [done|]. split.
  - intros f path Hf. by rewrite dict_get_merge, Hf.
  - intros f.
    assert (f ∈ declared _find_stage stack l ↔
            is_Some (first_decl _find_stage stack (rev l) f)) as ->
      by (by rewrite first_decl_is_Some, rev_involutive).
    rewrite <- !dict_get_is_Some, dict_get_merge.
    destruct (dict_get f om) as [path|].
    + split; eauto.
    + split; [by right | intros [[? ?]|?]; done].
Qed.

(** C8. [outputs] lists exactly the keys of the output map, each once,
    and these are exactly the filenames declared by the stages the names
    of the chain resolve to; so there are as many of them as there are
    distinct declared filenames. *)
Theorem outputs_are_declared nm ℓ σ l p σ' :
  heap σ !! ℓ = Some l →
  Pipeline_init cfg _find_stage nm ℓ σ = (Return p, σ') →
  outputs p = dict_keys (output_map p)
  ∧ NoDup (outputs p)
  ∧ (∀ f, f ∈ outputs p ↔ is_Some (dict_get f (output_map p)))
  ∧ (∀ f, f ∈ outputs p ↔ f ∈ declared _find_stage (stagestack p) l)
  ∧ length (outputs p) =
    length (remove_dups (declared _find_stage (stagestack p) l)).
Proof.
  intros H Hinit.
  destruct (Pipeline_init_Return _ _ _ _ _ _ H Hinit) as (s & σ1 & _ & -> & _).
  unfold outputs. simpl.
  assert (NoDup (dict_keys (merge _find_stage s (rev l) []))) as Hnd
    by (apply dict_keys_merge_NoDup, NoDup_nil_2).
  assert (∀ f, f ∈ dict_keys (merge _find_stage s (rev l) []) ↔
               f ∈ declared _find_stage s l) as Hkeys.
  { intros f. rewrite <- dict_get_is_Some, dict_get_merge. simpl.
    rewrite first_decl_is_Some. by rewrite rev_involutive. }
  split_and!; [done|done| |done|].
  - intros f. by rewrite dict_get_is_Some.
  - apply Permutation_length, NoDup_Permutation;
      [done | apply NoDup_remove_dups |].
    intros f. by rewrite Hkeys, elem_of_remove_dups.
Qed.

(** C10. Construction leaves the configured list alone: the pipeline
    refers to the very list object it was given, that object still holds
    the configured names, every other list object that existed is
    unchanged, and the chain key of the backing stack is the dot-join of
    the full list. *)
Theorem stages_not_mutated nm ℓ σ l p σ' :
  session_wf cfg σ →
  heap σ !! ℓ = Some l →
  Pipeline_init cfg _find_stage nm ℓ σ = (Return p, σ') →
  stages p = ℓ
  ∧ heap σ' !! stages p = Some l
  ∧ (∀ ℓ', (ℓ' < length (heap σ))%nat → heap σ' !! ℓ' = heap σ !! ℓ')
  ∧ stack_name (stagestack p) = join "." l.
Proof.
  intros Hwf H Hinit.
  destruct (Pipeline_init_Return _ _ _ _ _ _ H Hinit) as (s & σ1 & Hget & -> & ->).
  simpl. split_and!; [done| | |].
  - rewrite lookup_app_l; [done | by eapply lookup_lt_Some].
  - intros ℓ' Hlt. by rewrite lookup_app_l.
  - pose proof (StageStack_get_wf (join "." l) σ Hwf) as Hwf1.
    rewrite Hget in Hwf1. destruct Hwf1 as (Ht & _ & _).
    apply StageStack_get_Return in Hget.
    by destruct (Ht _ _ Hget) as (? & _).
Qed.

(** C9. The path of a pipeline is its own name, whatever suffix is
    passed, none included. *)
Theorem get_path_is_name self suffix :
  get_path self suffix = name self ∧ get_path self suffix = get_path self None.
Proof. done. Qed.

(** ** Construction errors *)

(** C6. Constructing a pipeline from an empty list of stage names raises a
    configuration error, and nothing of the session is changed. *)
Theorem empty_chain_rejected nm ℓ σ :
  session_wf cfg σ →
  heap σ !! ℓ = Some [] →
  Pipeline_init cfg _find_stage nm ℓ σ = (Raise YmpConfigError, σ).
Proof.
  intros (Ht & _ & _) H. rewrite (Pipeline_init_unfold _ _ _ []) by done.
  simpl. rewrite StageStack_get_invalid; [done| |done].
  destruct (stacks σ !! "") as [s|] eqn:E; [|done].
  by destruct (Ht _ _ E) as (_ & ? & _).
Qed.

Lemma project_no_root h self s0 rest depth :
  h !! stages self = Some (s0 :: rest) →
  projects cfg !! s0 = None → pipelines cfg !! s0 = None →
  project cfg (S depth) h self = Raise YmpConfigError.
Proof. intros H Hp Hq. simpl. by rewrite H, Hp, Hq. Qed.

(** What the constructor itself contributes when the first stage name is
    neither a project nor a pipeline: nothing. It raises exactly what
    [StageStack.get] raises for the chain, and if [StageStack.get] returns, a
    pipeline is constructed on which [project] raises the configuration
    error each time it is read. Whether [StageStack.get] returns for such a
    chain is not decided by the sources. *)
Lemma first_segment_checked_by_project nm ℓ σ s0 rest :
  heap σ !! ℓ = Some (s0 :: rest) →
  projects cfg !! s0 = None →
  pipelines cfg !! s0 = None →
  (∀ e σ1, StageStack_get cfg (join "." (s0 :: rest)) σ = (Raise e, σ1) →
           Pipeline_init cfg _find_stage nm ℓ σ = (Raise e, σ1))
  ∧ (∀ s σ1, StageStack_get cfg (join "." (s0 :: rest)) σ = (Return s, σ1) →
       ∃ p σ', Pipeline_init cfg _find_stage nm ℓ σ = (Return p, σ')
               ∧ ∀ depth,
                   project cfg (S depth) (heap σ') p = Raise YmpConfigError).
Proof.
  intros H Hp Hq. rewrite (Pipeline_init_unfold _ _ _ (s0 :: rest)) by done.
  split.
  - by intros e σ1 ->.
  - intros s σ1 ->. eexists _, _. split; [done|].
    intros depth. apply project_no_root with s0 rest; [|done..].
    simpl. rewrite lookup_app_l; [done | by eapply lookup_lt_Some].
Qed.

(** ** Project resolution *)

Lemma project_direct h self s0 rest proj depth :
  h !! stages self = Some (s0 :: rest) →
  projects cfg !! s0 = Some proj →
  project cfg (S depth) h self = Return proj.
Proof. intros H Hp. simpl. by rewrite H, Hp. Qed.

(** Delegation proper: the project of the parent, resolved with one
    frame less. *)
Lemma project_delegates h self parent depth :
  delegates cfg h self parent →
  project cfg (S depth) h self = project cfg depth h parent.
Proof. intros (s0 & rest & H & Hp & Hq). simpl. by rewrite H, Hp, Hq. Qed.

Lemma delegates_det h self p q :
  delegates cfg h self p → delegates cfg h self q → p = q.
Proof.
  intros (s0 & rest & H & _ & Hq) (s0' & rest' & H' & _ & Hq'). congruence.
Qed.

(** C4. Project resolution follows the chain of roots: when [self]
    reaches the pipeline [root] in [k] delegation steps and the first
    stage name of [root] is the registered project [proj], then [project]
    of [self] is [project] of [root], and is [proj], as soon as more
    than [k] frames are available. *)
Theorem project_transitive h k self root s0 rest proj depth :
  nsteps (delegates cfg h) k self root →
  h !! stages root = Some (s0 :: rest) →
  projects cfg !! s0 = Some proj →
  (k < depth)%nat →
  project cfg depth h self = project cfg (depth - k) h root
  ∧ project cfg depth h self = Return proj.
Proof.
  intros Hsteps Hroot Hproj. revert depth.
  induction Hsteps as [self|k self parent root Hd _ IH]; intros depth Hlt.
  - rewrite Nat.sub_0_r. split; [done|].
    destruct depth as [|depth]; [lia|]. by eapply project_direct.
  - destruct depth as [|depth]; [lia|].
    rewrite (project_delegates _ _ parent) by done.
    apply IH; [done | lia].
Qed.

Lemma tc_first_step {A} (R : relation A) x z :
  tc R x z → ∃ y, R x y ∧ rtc R y z.
Proof.
  intros [x' z' H|x' y z' H Hrest].
  - exists z'. split; [done | apply rtc_refl].
  - exists y. split; [done | by apply tc_rtc].
Qed.

(** On a delegation cycle every pipeline reachable from [self] leads back
    to [self]. *)
Lemma cycle_returns h self r :
  tc (delegates cfg h) self self → rtc (delegates cfg h) self r →
  rtc (delegates cfg h) r self.
Proof.
  intros Hcyc. revert r. apply rtc_ind_r; [apply rtc_refl|].
  intros r0 r Hr0 Hstep IH.
  destruct (rtc_inv _ _ IH) as [->|(r' & Hr' & Hrest)].
  - destruct (tc_first_step _ _ _ Hcyc) as (q & Hq & Hrest).
    by rewrite (delegates_det _ _ _ _ Hstep Hq).
  - by rewrite (delegates_det _ _ _ _ Hstep Hr').
Qed.

(** C3, as the code has it. When the delegation of the project root
    cycles back on [self], reading [project] neither returns a project nor
    raises a configuration error: the recursion uses up every frame the
    interpreter allows, however many, and ends in a [RecursionError]. *)
Theorem project_cycle_exhausts_stack h self depth :
  tc (delegates cfg h) self self →
  project cfg depth h self = Raise RecursionError.
Proof.
  intros Hcyc.
  cut (∀ r, rtc (delegates cfg h) self r →
            project cfg depth h r = Raise RecursionError).
  { intros Hall. apply Hall, rtc_refl. }
  induction depth as [|depth IH]; intros r Hr; [done|].
  assert (∃ r', delegates cfg h r r') as [r' Hr'].
  { destruct (rtc_inv _ _ (cycle_returns _ _ _ Hcyc Hr)) as [->|(r' & ? & _)].
    - destruct (tc_first_step _ _ _ Hcyc) as (q & Hq & _). eauto.
    - eauto. }
  rewrite (project_delegates _ _ r') by done.
  apply IH. by eapply rtc_r.
Qed.

(** ** Identity of memoized stacks *)

(** C5. Every valid chain key has one [StageStack]: a first call of
    [StageStack.get] returns an instance, a later call with the same key,
    after any number of further requests and pipeline constructions,
    returns that very instance (same object identity) and constructs
    nothing, and no two instances constructed in the session have the same
    chain key. *)
Theorem StageStack_get_identity σ k cs :
  session_wf cfg σ →
  valid_chain_key cfg k = true →
  ∃ s σ1,
    StageStack_get cfg k σ = (Return s, σ1)
    ∧ StageStack_get cfg k (after_calls cfg _find_stage cs σ1) =
      (Return s, after_calls cfg _find_stage cs σ1)
    ∧ ∀ a b, a ∈ created (after_calls cfg _find_stage cs σ1) →
             b ∈ created (after_calls cfg _find_stage cs σ1) →
             stack_name a = stack_name b → a = b ∧ stack_id a = stack_id b.
Proof.
  intros Hwf Hv.
  assert (∃ s σ1, StageStack_get cfg k σ = (Return s, σ1)) as (s & σ1 & Hget).
  { destruct (StageStack_get_cases k σ) as [(s & _ & ->)|[(_ & _ & ->)|(_ & ? & _)]];
      [eauto..|congruence]. }
  exists s, σ1. split; [done|]. split.
  - apply StageStack_get_hit, after_calls_keeps.
    by eapply StageStack_get_Return.
  - intros a b Ha Hb E.
    assert (session_wf cfg (after_calls cfg _find_stage cs σ1)) as Hwf2.
    { apply after_calls_wf. pose proof (StageStack_get_wf k σ Hwf) as Hwf1.
      by rewrite Hget in Hwf1. }
    assert (a = b) as -> by (by eapply session_wf_unique). done.
Qed.

End Properties.

(** ** The properties at work on concrete configurations *)

(** The scenario of the specification: [trim_bbmap] shadows [import] for
    [reads.fastq], and the chain is rooted in [proj1]. *)
Example toy_scenario :
  ∃ p σ',
    Pipeline_init toy_cfg (registry_find_stage toy_cfg) "qc" 0 toy_session =
      (Return p, σ')
    ∧ output_map p = [("reads.fastq", "proj1.import.trim_bbmap");
                      ("log.txt", "proj1.import.trim_bbmap")]
    ∧ outputs p = ["reads.fastq"; "log.txt"]
    ∧ project toy_cfg 1 (heap σ') p = Return project1
    ∧ heap σ' = [["proj1"; "import"; "trim_bbmap"]; []].
Proof. eexists _, _. repeat split; vm_compute; reflexivity. Qed.

Lemma output_map_tail_wins_witness :
  ∃ p σ',
    Pipeline_init nested_cfg (registry_find_stage nested_cfg) "all" 0
      shadow_session = (Return p, σ')
    ∧ dict_get "reads.fastq" (output_map p) =
      Some (join "." (take 3 ["proj1"; "import"; "trim_bbmap"; "qc_fastqc"])).
Proof.
  eexists _, _. split; [vm_compute; reflexivity|].
  eapply (output_map_tail_wins nested_cfg (registry_find_stage nested_cfg)
            "all" 0 shadow_session _ _ _ 2 "trim_bbmap" st_trim "reads.fastq").
  - reflexivity.
  - vm_compute; reflexivity.
  - reflexivity.
  - vm_compute; reflexivity.
  - vm_compute. apply list_elem_of_here.
  - intros j n' stage' Hj Hl Hfind.
    do 3 (destruct j as [|j]; [lia|]).
    destruct j as [|j]; [|done].
    injection Hl as <-. vm_compute in Hfind. injection Hfind as <-.
    simpl. by intros ?%list_elem_of_singleton.
Defined.

Lemma unresolved_stage_skipped_witness :
  let find := registry_find_stage toy_cfg in
  let stack := mkStageStack 0 "proj1.import.by_ID" ["proj1"; "import"; "by_ID"] in
  while_stage_names find 3 stack 0 [] grouped_session =
  while_stage_names find 2 stack 0 [] (store 0 ["proj1"; "import"] grouped_session).
Proof.
  intros find stack.
  refine (proj1 (unresolved_stage_skipped find 2 stack 0 [] grouped_session
                   ["proj1"; "import"] "by_ID" _ _ _)).
  - reflexivity.
  - vm_compute; reflexivity.
  - simpl; lia.
Defined.

Lemma outputs_are_declared_witness :
  ∃ p σ',
    Pipeline_init toy_cfg (registry_find_stage toy_cfg) "qc" 0 toy_session =
      (Return p, σ')
    ∧ outputs p = ["reads.fastq"; "log.txt"]
    ∧ length (outputs p) =
      length (remove_dups (declared (registry_find_stage toy_cfg) (stagestack p)
                             ["proj1"; "import"; "trim_bbmap"])).
Proof.
  eexists _, _. split; [vm_compute; reflexivity|].
  split; [vm_compute; reflexivity|].
  refine (proj2 (proj2 (proj2 (proj2
    (outputs_are_declared toy_cfg (registry_find_stage toy_cfg) "qc" 0
       toy_session ["proj1"; "import"; "trim_bbmap"] _ _ _ _))))).
  - reflexivity.
  - vm_compute; reflexivity.
Defined.

Lemma stages_not_mutated_witness :
  ∃ p σ',
    Pipeline_init toy_cfg (registry_find_stage toy_cfg) "qc" 0 toy_session =
      (Return p, σ')
    ∧ heap σ' !! stages p = Some ["proj1"; "import"; "trim_bbmap"]
    ∧ stack_name (stagestack p) = join "." ["proj1"; "import"; "trim_bbmap"].
Proof.
  eexists _, _. split; [vm_compute; reflexivity|].
  edestruct (stages_not_mutated toy_cfg (registry_find_stage toy_cfg) "qc" 0
               toy_session ["proj1"; "import"; "trim_bbmap"])
    as (_ & Hheap & _ & Hkey).
  - apply fresh_session_wf.
  - reflexivity.
  - vm_compute; reflexivity.
  - split; [exact Hheap | exact Hkey].
Defined.

Lemma get_path_of_constructed :
  ∃ p σ',
    Pipeline_init toy_cfg (registry_find_stage toy_cfg) "qc" 0 toy_session =
      (Return p, σ')
    ∧ get_path p (Some "/all") = "qc".
Proof. eexists _, _. split; vm_compute; reflexivity. Qed.

Lemma empty_chain_rejected_witness :
  Pipeline_init toy_cfg (registry_find_stage toy_cfg) "none" 0
    empty_chain_session = (Raise YmpConfigError, empty_chain_session).
Proof.
  apply (empty_chain_rejected toy_cfg (registry_find_stage toy_cfg) "none" 0
           empty_chain_session).
  - apply fresh_session_wf.
  - reflexivity.
Defined.

Lemma loop_pipeline_delegates :
  delegates loop_cfg loop_heap loop_pipeline loop_pipeline.
Proof.
  exists "loop", ["import"]. split; [reflexivity|].
  split; vm_compute; reflexivity.
Defined.

(** Counterexample to C3: a pipeline that names itself as its root never
    gets a configuration error out of [project], whatever the recursion
    limit. *)
Lemma self_rooted_pipeline_no_config_error :
  ¬ ∃ depth, project loop_cfg depth loop_heap loop_pipeline = Raise YmpConfigError.
Proof.
  assert (∀ depth,
    project loop_cfg depth loop_heap loop_pipeline = Raise RecursionError) as H.
  { induction depth as [|depth IH]; [done|].
    by rewrite (project_delegates _ _ _ _ _ loop_pipeline_delegates). }
  intros [depth Hd]. rewrite H in Hd. discriminate.
Qed.

Lemma project_cycle_exhausts_stack_witness :
  project loop_cfg 1000 loop_heap loop_pipeline = Raise RecursionError.
Proof.
  apply (project_cycle_exhausts_stack loop_cfg loop_heap loop_pipeline 1000).
  apply tc_once, loop_pipeline_delegates.
Defined.

Lemma project_transitive_witness :
  project nested_cfg 2 nested_heap report_pipeline = Return project1.
Proof.
  refine (proj2 (project_transitive nested_cfg nested_heap 1 report_pipeline
                   qc_pipeline "proj1" ["import"; "trim_bbmap"] project1 2 _ _ _ _)).
  - apply nsteps_once. exists "qc", ["qc_fastqc"]. split; [reflexivity|].
    split; vm_compute; reflexivity.
  - reflexivity.
  - vm_compute; reflexivity.
  - lia.
Defined.

Lemma StageStack_get_identity_witness :
  let find := registry_find_stage toy_cfg in
  let cs := [CallGet "proj1"; CallPipeline "qc" 0; CallGet "proj1.import"] in
  ∃ s σ1,
    StageStack_get toy_cfg "proj1.import" toy_session = (Return s, σ1)
    ∧ StageStack_get toy_cfg "proj1.import" (after_calls toy_cfg find cs σ1) =
      (Return s, after_calls toy_cfg find cs σ1).
Proof.
  intros find cs.
  destruct (StageStack_get_identity toy_cfg find toy_session "proj1.import" cs)
    as (s & σ1 & H1 & H2 & _).
  - apply fresh_session_wf.
  - vm_compute; reflexivity.
  - exists s, σ1. split; [exact H1 | exact H2].
Defined.

(** ** Further properties of the pipeline module *)

Lemma list_ascii_of_string_app s t :
  list_ascii_of_string (s +:+ t) = list_ascii_of_string s ++ list_ascii_of_string t.
Proof. induction s as [|c s IH]; simpl; [done | by rewrite IH]. Qed.

Lemma string_app_inv_tail s1 s2 t : s1 +:+ t = s2 +:+ t → s1 = s2.
Proof.
  intros H. apply (f_equal list_ascii_of_string) in H.
  rewrite !list_ascii_of_string_app in H. apply app_inv_tail in H.
  apply (f_equal string_of_list_ascii) in H.
  by rewrite !string_of_list_ascii_of_string in H.
Qed.

(** Two pipelines have the same completion marker only if they have the
    same directory. *)
Theorem stamp_determines_dir dir p q : stamp dir p = stamp dir q → dir p = dir q.
Proof. unfold stamp. apply string_app_inv_tail. Qed.

Lemma dict_keys_record_output path om g :
  dict_keys (record_output path om g) = add_key (dict_keys om) g.
Proof.
  unfold record_output, add_key. destruct (dict_mem g om) eqn:E.
  - apply dict_mem_spec, dict_get_is_Some in E.
    by rewrite bool_decide_eq_true_2.
  - assert (dict_get g om = None) as Hg.
    { destruct (dict_get g om) eqn:Eg; [|done].
      assert (dict_mem g om = true) by (apply dict_mem_spec; rewrite Eg; eauto).
      congruence. }
    rewrite dict_keys_set_new by done.
    apply dict_get_None in Hg. by rewrite bool_decide_eq_false_2.
Qed.

Lemma dict_keys_record_outputs stage path om :
  dict_keys (record_outputs stage path om) =
  foldl add_key (dict_keys om) (stage_outputs stage).
Proof.
  unfold record_outputs. revert om.
  induction (stage_outputs stage) as [|g outs IH]; intros om; [done|].
  simpl. by rewrite IH, dict_keys_record_output.
Qed.

Section MoreProperties.

Variable cfg : Config.
Variable _find_stage : StageStack → string → option Stage.

Lemma dict_keys_merge stack rnames om :
  dict_keys (merge _find_stage stack rnames om) =
  foldl add_key (dict_keys om) (rnames ≫= resolved_outputs _find_stage stack).
Proof.
  revert om. induction rnames as [|n rnames IH]; intros om; [done|].
  cbn [merge]. rewrite IH, bind_cons, foldl_app. f_equal.
  unfold add_stage, resolved_outputs.
  destruct (_find_stage stack n); [|done]. apply dict_keys_record_outputs.
Qed.

(** The order of [outputs]: the filenames of the stages of the chain,
    last stage first, each stage's in the order the stage declares them,
    every filename at its first occurrence in that sequence. *)
Theorem outputs_order nm ℓ σ l p σ' :
  heap σ !! ℓ = Some l →
  Pipeline_init cfg _find_stage nm ℓ σ = (Return p, σ') →
  outputs p = keep_first (rev l ≫= resolved_outputs _find_stage (stagestack p)).
Proof.
  intros H Hinit.
  destruct (Pipeline_init_Return _ _ _ _ _ _ _ _ H Hinit) as (s & σ1 & _ & -> & _).
  unfold outputs, keep_first. simpl. by rewrite dict_keys_merge.
Qed.

Lemma first_decl_Some_inv stack l f path :
  first_decl _find_stage stack (rev l) f = Some path →
  ∃ i n, l !! i = Some n
         ∧ f ∈ resolved_outputs _find_stage stack n
         ∧ path = join "." (take (S i) l)
         ∧ ∀ j n', (i < j)%nat → l !! j = Some n' →
                   f ∉ resolved_outputs _find_stage stack n'.
Proof.
  induction l as [|x l IH] using rev_ind; [done|].
  rewrite rev_unit. cbn [first_decl]. rewrite <- rev_unit, rev_involutive.
  destruct (decide (f ∈ resolved_outputs _find_stage stack x)) as [Hx|Hx].
  - rewrite bool_decide_eq_true_2 by done. intros [= <-].
    exists (length l), x. split_and!.
    + by rewrite list_lookup_middle.
    + done.
    + rewrite take_ge; [done | rewrite length_app; simpl; lia].
    + intros j n' Hj Hn'. apply lookup_lt_Some in Hn'.
      rewrite length_app in Hn'. simpl in Hn'. lia.
  - rewrite bool_decide_eq_false_2 by done. intros Hrest.
    destruct (IH Hrest) as (i & n & Hi & Hn & -> & Hlater).
    assert (i < length l)%nat as Hlt by (by eapply lookup_lt_Some).
    exists i, n. split_and!.
    + by rewrite lookup_app_l.
    + done.
    + by rewrite take_app_le by lia.
    + intros j n' Hj Hn'. destruct (decide (j < length l)%nat).
      * rewrite lookup_app_l in Hn' by done. by apply (Hlater j).
      * assert (j = length l) as ->.
        { apply lookup_lt_Some in Hn'. rewrite length_app in Hn'.
          simpl in Hn'. lia. }
        rewrite list_lookup_middle in Hn' by done. by injection Hn' as <-.
Qed.

(** Every entry of the output map has an owner: a filename is mapped to
    a path only if some position of the chain resolves to a stage that
    declares it, the path is the dot-join of the chain up to the last
    such position, and no later position declares the filename. *)
Theorem output_map_entry_owned nm ℓ σ l p σ' f path :
  heap σ !! ℓ = Some l →
  Pipeline_init cfg _find_stage nm ℓ σ = (Return p, σ') →
  dict_get f (output_map p) = Some path →
  ∃ i n stage,
    l !! i = Some n
    ∧ _find_stage (stagestack p) n = Some stage
    ∧ f ∈ stage_outputs stage
    ∧ path = join "." (take (S i) l)
    ∧ ∀ j n', (i < j)%nat → l !! j = Some n' →
              f ∉ resolved_outputs _find_stage (stagestack p) n'.
Proof.
  intros H Hinit.
  destruct (Pipeline_init_Return _ _ _ _ _ _ _ _ H Hinit) as (s & σ1 & _ & -> & _).
  simpl. rewrite dict_get_merge. simpl. intros Hf.
  destruct (first_decl_Some_inv _ _ _ _ Hf) as (i & n & Hi & Hn & -> & Hlater).
  unfold resolved_outputs in Hn.
  destruct (_find_stage s n) as [stage|] eqn:E; [|by apply elem_of_nil in Hn].
  by exists i, n, stage.
Qed.

(** Appending a name to a chain: the loop run on the longer list maps the
    filenames the new last name resolves to onto the path of the whole
    list, and every other filename to what the loop run on the shorter
    list maps it to. *)
Theorem appended_stage_shadows stack fuel ℓ σ fuel0 ℓ0 σ0 l n :
  heap σ !! ℓ = Some (l ++ [n]) → (length l < fuel)%nat →
  heap σ0 !! ℓ0 = Some l → (length l ≤ fuel0)%nat →
  ∃ om om0,
    while_stage_names _find_stage fuel stack ℓ [] σ = (Return om, store ℓ [] σ)
    ∧ while_stage_names _find_stage fuel0 stack ℓ0 [] σ0 =
      (Return om0, store ℓ0 [] σ0)
    ∧ ∀ f, dict_get f om =
           if bool_decide (f ∈ resolved_outputs _find_stage stack n)
           then Some (join "." (l ++ [n]))
           else dict_get f om0.
Proof.
  intros H Hfuel H0 Hfuel0.
  rewrite (while_stage_names_merge _ _ _ _ _ _ (l ++ [n]));
    [|done|rewrite length_app; simpl; lia].
  rewrite (while_stage_names_merge _ _ _ _ _ _ l) by done.
  eexists _, _. split; [done|]. split; [done|].
  intros f. rewrite !dict_get_merge. simpl. rewrite rev_unit.
  cbn [first_decl]. by rewrite <- rev_unit, rev_involutive.
Qed.

(** *** Project resolution, outcome by outcome *)

(** Along a delegation chain [project] is the [project] of the pipeline
    reached, with as many frames less. *)
Lemma project_along_chain h k self root depth :
  nsteps (delegates cfg h) k self root → (k ≤ depth)%nat →
  project cfg depth h self = project cfg (depth - k) h root.
Proof.
  intros Hsteps. revert depth.
  induction Hsteps as [self|k self parent root Hd _ IH]; intros depth Hle.
  - by rewrite Nat.sub_0_r.
  - destruct depth as [|depth]; [lia|].
    rewrite (project_delegates _ _ _ parent) by done.
    apply IH. lia.
Qed.

(** Any outcome other than the exhaustion of the stack is produced by
    the pipeline at the end of a delegation chain shorter than the
    depth, a pipeline that does not delegate. *)
Lemma project_chain_end h depth self r :
  project cfg depth h self = r → r ≠ Raise RecursionError →
  ∃ k root, (k < depth)%nat
            ∧ nsteps (delegates cfg h) k self root
            ∧ (∀ q, ¬ delegates cfg h root q)
            ∧ project cfg 1 h root = r.
Proof.
  revert self. induction depth as [|depth IH]; intros self Hr Hne.
  { simpl in Hr. congruence. }
  assert (∀ q, delegates cfg h self q ∨
               (¬ (∃ q', delegates cfg h self q') ∧ project cfg 1 h self = r) →
          ∃ k root, (k < S depth)%nat
            ∧ nsteps (delegates cfg h) k self root
            ∧ (∀ q', ¬ delegates cfg h root q')
            ∧ project cfg 1 h root = r) as Hcases.
  { intros q [Hd|[Hend H1]].
    - rewrite (project_delegates _ _ _ q) in Hr by done.
      destruct (IH q Hr Hne) as (k & root & Hk & Hsteps & Hend & Hroot).
      exists (S k), root. split_and!; [lia | by eapply nsteps_l | done..].
    - exists 0%nat, self. split_and!; [lia | apply nsteps_O | eauto | done]. }
  cbn [project] in Hr.
  destruct (h !! stages self) as [[|s0 rest]|] eqn:Hs.
  - apply (Hcases self). right. split.
    + intros (q & ? & ? & ? & _). congruence.
    + cbn [project]. by rewrite Hs.
  - destruct (projects cfg !! s0) as [proj|] eqn:Hp.
    { apply (Hcases self). right. split.
      + intros (q & ? & ? & ? & ? & _). congruence.
      + cbn [project]. by rewrite Hs, Hp. }
    destruct (pipelines cfg !! s0) as [parent|] eqn:Hq.
    + apply (Hcases parent). left. by exists s0, rest.
    + apply (Hcases self). right. split.
      * intros (q & ? & ? & ? & _ & ?). congruence.
      * cbn [project]. by rewrite Hs, Hp, Hq.
  - apply (Hcases self). right. split.
    + intros (q & ? & ? & ? & _). congruence.
    + cbn [project]. by rewrite Hs.
Qed.

(** [project] returns nothing but a registered project found at the end
    of the delegation chain: if it returns [proj], then fewer delegation
    steps than the depth lead to a pipeline whose first stage name is
    registered as [proj]. *)
Theorem project_returns_registered_root h depth self proj :
  project cfg depth h self = Return proj →
  ∃ k root s0 rest,
    (k < depth)%nat
    ∧ nsteps (delegates cfg h) k self root
    ∧ h !! stages root = Some (s0 :: rest)
    ∧ projects cfg !! s0 = Some proj.
Proof.
  intros Hr.
  destruct (project_chain_end _ _ _ _ Hr) as (k & root & Hk & Hsteps & _ & Hroot);
    [done|].
  exists k, root. simpl in Hroot.
  destruct (h !! stages root) as [[|s0 rest]|]; [done| |done].
  destruct (projects cfg !! s0) as [proj'|] eqn:Hp.
  - injection Hroot as ->. by exists s0, rest.
  - by destruct (pipelines cfg !! s0).
Qed.

(** The configuration error of [project] is raised exactly when the
    delegation chain ends, within the depth, at a pipeline whose first
    stage name is neither a project nor a pipeline, however many
    pipelines delegate to it. *)
Theorem project_config_error_iff h depth self :
  project cfg depth h self = Raise YmpConfigError ↔
  ∃ k root s0 rest,
    (k < depth)%nat
    ∧ nsteps (delegates cfg h) k self root
    ∧ h !! stages root = Some (s0 :: rest)
    ∧ projects cfg !! s0 = None
    ∧ pipelines cfg !! s0 = None.
Proof.
  split.
  - intros Hr.
    destruct (project_chain_end _ _ _ _ Hr) as (k & root & Hk & Hsteps & _ & Hroot);
      [done|].
    exists k, root. simpl in Hroot.
    destruct (h !! stages root) as [[|s0 rest]|]; [done| |done].
    destruct (projects cfg !! s0) as [proj'|] eqn:Hp; [done|].
    destruct (pipelines cfg !! s0) eqn:Hq; [done|].
    by exists s0, rest.
  - intros (k & root & s0 & rest & Hk & Hsteps & Hs & Hp & Hq).
    rewrite (project_along_chain _ k _ root) by (done || lia).
    destruct (depth - k)%nat as [|d] eqn:E; [lia|].
    by eapply project_no_root.
Qed.

(** A pipeline with no stage names makes [project] fail with an
    [IndexError], for itself and for every pipeline whose delegation
    chain ends at it; and this is the only way [project] raises an
    [IndexError]. *)
Theorem project_index_error_iff h depth self :
  project cfg depth h self = Raise IndexError ↔
  ∃ k root,
    (k < depth)%nat
    ∧ nsteps (delegates cfg h) k self root
    ∧ h !! stages root = Some [].
Proof.
  split.
  - intros Hr.
    destruct (project_chain_end _ _ _ _ Hr) as (k & root & Hk & Hsteps & _ & Hroot);
      [done|].
    exists k, root. simpl in Hroot.
    destruct (h !! stages root) as [[|s0 rest]|]; [done| |done].
    destruct (projects cfg !! s0) as [proj'|] eqn:Hp; [done|].
    by destruct (pipelines cfg !! s0).
  - intros (k & root & Hk & Hsteps & Hs).
    rewrite (project_along_chain _ k _ root) by (done || lia).
    destruct (depth - k)%nat as [|d] eqn:E; [lia|].
    simpl. by rewrite Hs.
Qed.

(** [project] exhausts the stack exactly when the delegation chain is at
    least as long as the depth allowed, whether it cycles or not. *)
Theorem project_recursion_error_iff h depth self :
  project cfg depth h self = Raise RecursionError ↔
  ∃ r, nsteps (delegates cfg h) depth self r.
Proof.
  split.
  - revert self. induction depth as [|depth IH]; intros self Hr.
    { exists self. apply nsteps_O. }
    assert (∃ parent, delegates cfg h self parent) as [parent Hd].
    { simpl in Hr. destruct (h !! stages self) as [[|s0 rest]|] eqn:Hs; [done| |done].
      destruct (projects cfg !! s0) eqn:Hp; [done|].
      destruct (pipelines cfg !! s0) as [parent|] eqn:Hq; [|done].
      exists parent. by exists s0, rest. }
    rewrite (project_delegates _ _ _ parent) in Hr by done.
    destruct (IH parent Hr) as [r Hsteps]. exists r. by eapply nsteps_l.
  - intros [r Hsteps].
    rewrite (project_along_chain _ depth _ r) by done.
    by rewrite Nat.sub_diag.
Qed.

(** A result of [project], once obtained, does not depend on how much
    more of the stack is available. *)
Theorem project_depth_irrelevant h depth depth' self r :
  project cfg depth h self = r → r ≠ Raise RecursionError →
  (depth ≤ depth')%nat →
  project cfg depth' h self = r.
Proof.
  intros Hr Hne Hle.
  destruct (project_chain_end _ _ _ _ Hr Hne) as (k & root & Hk & Hsteps & _ & Hroot).
  rewrite (project_along_chain _ k _ root) by (done || lia).
  destruct (depth' - k)%nat as [|d] eqn:E; [lia|].
  destruct d as [|d]; [done|].
  simpl in *. destruct (h !! stages root) as [[|s0 rest]|]; [done| |done].
  destruct (projects cfg !! s0); [done|].
  destruct (pipelines cfg !! s0); [|done]. congruence.
Qed.

Lemma heap_lookup_app (h h' : list (list string)) (ℓ : loc) l :
  h !! ℓ = Some l → (h ++ h') !! ℓ = Some l.
Proof. apply lookup_app_l_Some. Qed.

Lemma project_heap_app h h' depth self :
  project cfg depth h self ≠ Raise TypeError →
  project cfg depth (h ++ h') self = project cfg depth h self.
Proof.
  revert self. induction depth as [|depth IH]; intros self Hne; [done|].
  cbn [project] in *.
  destruct (h !! stages self) as [l|] eqn:Hs; [|done].
  rewrite (heap_lookup_app _ h' _ _ Hs).
  destruct l as [|s0 rest]; [done|].
  destruct (projects cfg !! s0); [done|].
  destruct (pipelines cfg !! s0); [|done]. by apply IH.
Qed.

(** Constructing a pipeline, successfully or not, does not change what
    [project] gives for any pipeline whose chain of roots consists of
    live list objects. *)
Theorem project_unaffected_by_construction nm ℓ σ depth self :
  project cfg depth (heap σ) self ≠ Raise TypeError →
  project cfg depth (heap (Pipeline_init cfg _find_stage nm ℓ σ).2) self =
  project cfg depth (heap σ) self.
Proof.
  intros Hne. destruct (heap σ !! ℓ) as [l|] eqn:H.
  - rewrite (Pipeline_init_unfold _ _ _ _ _ l) by done.
    pose proof (StageStack_get_heap cfg (join "." l) σ) as Hh.
    destruct (StageStack_get cfg (join "." l) σ) as [[s|e|] σ1]; simpl in *.
    + by apply project_heap_app.
    + by rewrite Hh.
    + by rewrite Hh.
  - unfold Pipeline_init. unfold bind at 1, read at 1. by rewrite H.
Qed.

End MoreProperties.

(** *** The further properties on concrete configurations *)

Lemma stamp_determines_dir_witness :
  let dir := λ p : Pipeline, stack_name (stagestack p) in
  let again := mkPipeline "again" 1 (stagestack qc_pipeline) [] in
  dir qc_pipeline = dir again.
Proof.
  intros dir again. apply (stamp_determines_dir dir qc_pipeline again).
  reflexivity.
Defined.

Lemma outputs_order_witness :
  ∃ p σ',
    Pipeline_init nested_cfg (registry_find_stage nested_cfg) "all" 0
      long_session = (Return p, σ')
    ∧ outputs p = ["reads.fastq"; "report.zip"; "log.txt"]
    ∧ outputs p =
      keep_first (rev ["proj1"; "trim_bbmap"; "qc_fastqc"; "import"]
                    ≫= resolved_outputs (registry_find_stage nested_cfg)
                         (stagestack p)).
Proof.
  eexists _, _. split; [vm_compute; reflexivity|].
  split; [vm_compute; reflexivity|].
  eapply (outputs_order nested_cfg (registry_find_stage nested_cfg) "all" 0
            long_session ["proj1"; "trim_bbmap"; "qc_fastqc"; "import"]).
  - reflexivity.
  - vm_compute; reflexivity.
Defined.

Lemma output_map_entry_owned_witness :
  ∃ p σ',
    Pipeline_init nested_cfg (registry_find_stage nested_cfg) "all" 0
      long_session = (Return p, σ')
    ∧ ∃ i n stage,
        ["proj1"; "trim_bbmap"; "qc_fastqc"; "import"] !! i = Some n
        ∧ registry_find_stage nested_cfg (stagestack p) n = Some stage
        ∧ "log.txt" ∈ stage_outputs stage
        ∧ "proj1.trim_bbmap" =
          join "." (take (S i) ["proj1"; "trim_bbmap"; "qc_fastqc"; "import"]).
Proof.
  eexists _, _. split; [vm_compute; reflexivity|].
  edestruct (λ p σ',
               output_map_entry_owned nested_cfg (registry_find_stage nested_cfg)
                 "all" 0 long_session
                 ["proj1"; "trim_bbmap"; "qc_fastqc"; "import"]
                 p σ' "log.txt" "proj1.trim_bbmap" eq_refl)
    as (i & n & stage & Hi & Hn & Hf & Hpath & _).
  - vm_compute; reflexivity.
  - vm_compute; reflexivity.
  - exists i, n, stage. split_and!; [exact Hi | exact Hn | exact Hf | exact Hpath].
Defined.

Lemma appended_stage_shadows_witness :
  let find := registry_find_stage nested_cfg in
  let stack := mkStageStack 0 "proj1.import.trim_bbmap"
                 ["proj1"; "import"; "trim_bbmap"] in
  let σ := mkSession [["proj1"; "import"; "trim_bbmap"]; ["proj1"; "import"]] ∅ [] in
  ∃ om om0,
    while_stage_names find 3 stack 0 [] σ = (Return om, store 0 [] σ)
    ∧ while_stage_names find 2 stack 1 [] σ = (Return om0, store 1 [] σ)
    ∧ ∀ f, dict_get f om =
           if bool_decide (f ∈ resolved_outputs find stack "trim_bbmap")
           then Some (join "." (["proj1"; "import"] ++ ["trim_bbmap"]))
           else dict_get f om0.
Proof.
  intros find stack σ.
  apply (appended_stage_shadows find stack 3 0 σ 2 1 σ ["proj1"; "import"]
           "trim_bbmap").
  - reflexivity.
  - simpl; lia.
  - reflexivity.
  - simpl; lia.
Defined.

Lemma summary_delegates_twice :
  nsteps (delegates nested_cfg deep_heap) 2 summary_pipeline qc_pipeline.
Proof.
  eapply nsteps_l; [|apply nsteps_once].
  - exists "report", ["import"]. split; [reflexivity|].
    split; vm_compute; reflexivity.
  - exists "qc", ["qc_fastqc"]. split; [reflexivity|].
    split; vm_compute; reflexivity.
Defined.

Lemma child_delegates_once (c : Config) (h : list (list string))
    (root : Pipeline) (rest : list string) (n : string) :
  h !! 1%nat = Some (n :: rest) → projects c !! n = None →
  pipelines c !! n = Some root →
  nsteps (delegates c h) 1 child_pipeline root.
Proof. intros H Hp Hq. apply nsteps_once. by exists n, rest. Defined.

Lemma project_returns_registered_root_witness :
  ∃ k root s0 rest,
    (k < 3)%nat
    ∧ nsteps (delegates nested_cfg deep_heap) k summary_pipeline root
    ∧ deep_heap !! stages root = Some (s0 :: rest)
    ∧ projects nested_cfg !! s0 = Some project1.
Proof.
  apply (project_returns_registered_root nested_cfg deep_heap 3
           summary_pipeline project1).
  vm_compute; reflexivity.
Defined.

Lemma project_config_error_iff_witness :
  project orphan_cfg 2 orphan_heap child_pipeline = Raise YmpConfigError.
Proof.
  apply (project_config_error_iff orphan_cfg orphan_heap 2 child_pipeline).
  exists 1%nat, orphan_pipeline, "import", ["trim_bbmap"].
  split; [lia|]. split.
  - apply (child_delegates_once _ _ _ ["qc_fastqc"] "orphan");
      [reflexivity | vm_compute; reflexivity..].
  - split; [reflexivity|]. split; vm_compute; reflexivity.
Defined.

Lemma project_index_error_iff_witness :
  project hollow_cfg 2 hollow_heap child_pipeline = Raise IndexError.
Proof.
  apply (project_index_error_iff hollow_cfg hollow_heap 2 child_pipeline).
  exists 1%nat, hollow_pipeline.
  split; [lia|]. split; [|reflexivity].
  apply (child_delegates_once _ _ _ ["qc_fastqc"] "hollow");
    [reflexivity | vm_compute; reflexivity..].
Defined.

Lemma project_recursion_error_iff_witness :
  project nested_cfg 2 deep_heap summary_pipeline = Raise RecursionError.
Proof.
  apply (project_recursion_error_iff nested_cfg deep_heap 2 summary_pipeline).
  exists qc_pipeline. apply summary_delegates_twice.
Defined.

Lemma project_depth_irrelevant_witness :
  project nested_cfg 1000 deep_heap summary_pipeline = Return project1.
Proof.
  apply (project_depth_irrelevant nested_cfg deep_heap 3 1000 summary_pipeline).
  - vm_compute; reflexivity.
  - discriminate.
  - lia.
Defined.

Lemma project_unaffected_by_construction_witness :
  let find := registry_find_stage nested_cfg in
  let σ := mkSession deep_heap ∅ [] in
  project nested_cfg 3 (heap (Pipeline_init nested_cfg find "again" 1 σ).2)
    summary_pipeline =
  project nested_cfg 3 (heap σ) summary_pipeline.
Proof.
  intros find σ.
  apply (project_unaffected_by_construction nested_cfg find "again" 1 σ 3
           summary_pipeline).
  vm_compute. discriminate.
Defined.

(** ** The documentation extension: the objects table of the domain *)

Section Odict.

Context `{EqDecision K} {V : Type}.
Implicit Types (d : odict K V) (k : K) (v : V).

Lemma odict_get_set k' k v d :
  odict_get k' (odict_set k v d) =
  if decide (k' = k) then Some v else odict_get k' d.
Proof.
  induction d as [|[k0 v0] d IH]; simpl.
  - by destruct (decide (k' = k)).
  - destruct (decide (k = k0)) as [->|Hk]; simpl.
    + by destruct (decide (k' = k0)).
    + rewrite IH. destruct (decide (k' = k0)) as [->|]; [|done].
      by rewrite decide_False by done.
Qed.

Lemma odict_get_Some_elem k v d : odict_get k d = Some v → (k, v) ∈ d.
Proof.
  induction d as [|[k0 v0] d IH]; simpl; [done|].
  destruct (decide (k = k0)) as [->|].
  - intros [= ->]. apply list_elem_of_here.
  - intros H. apply list_elem_of_further. by apply IH.
Qed.

Lemma odict_get_None_keys k d : odict_get k d = None ↔ k ∉ d.*1.
Proof.
  induction d as [|[k0 v0] d IH]; simpl.
  - split; [intros _; apply not_elem_of_nil | done].
  - rewrite not_elem_of_cons. destruct (decide (k = k0)) as [->|].
    + split; [done | by intros [? _]].
    + rewrite IH. tauto.
Qed.

Lemma odict_elem_get k v d : odict_wf d → (k, v) ∈ d → odict_get k d = Some v.
Proof.
  unfold odict_wf. induction d as [|[k0 v0] d IH]; simpl.
  - by intros _ ?%elem_of_nil.
  - rewrite NoDup_cons. intros [Hk0 Hnd] [[= -> ->]|Hin]%elem_of_cons.
    + by rewrite decide_True.
    + destruct (decide (k = k0)) as [->|]; [|by apply IH].
      destruct Hk0. apply list_elem_of_fmap. by exists (k0, v).
Qed.

(** Assigning to a key keeps every key in place; a new key goes to the
    end. *)
Lemma odict_set_keys k v d :
  (odict_set k v d).*1 = if decide (k ∈ d.*1) then d.*1 else d.*1 ++ [k].
Proof.
  induction d as [|[k0 v0] d IH].
  - simpl. destruct (decide (k ∈ [])) as [H0|]; [by apply elem_of_nil in H0|done].
  - cbn [odict_set]. destruct (decide (k = k0)) as [->|Hk].
    + rewrite !fmap_cons. cbn [fst].
      destruct (decide (k0 ∈ k0 :: d.*1)) as [|Hn]; [done|].
      destruct Hn. apply list_elem_of_here.
    + rewrite !fmap_cons, IH. cbn [fst].
      destruct (decide (k ∈ d.*1)) as [Hd|Hd],
               (decide (k ∈ k0 :: d.*1)) as [Hin|Hin]; try done.
      * destruct Hin. by apply list_elem_of_further.
      * by apply elem_of_cons in Hin as [|].
Qed.

Lemma odict_wf_filter (P : K * V → Prop) `{∀ kv, Decision (P kv)} d :
  odict_wf d → odict_wf (filter P d).
Proof.
  unfold odict_wf. induction d as [|[k0 v0] d IH]; [done|].
  rewrite fmap_cons, NoDup_cons. intros [Hk Hnd].
  destruct (decide (P (k0, v0))).
  - rewrite filter_cons_True by done. rewrite fmap_cons, NoDup_cons.
    split; [|by apply IH]. intros Hin. apply Hk.
    apply list_elem_of_fmap in Hin as (kv & -> & Hkv%list_elem_of_filter).
    apply list_elem_of_fmap. exists kv. tauto.
  - rewrite filter_cons_False by done. by apply IH.
Qed.

Lemma odict_set_wf k v d : odict_wf d → odict_wf (odict_set k v d).
Proof.
  unfold odict_wf. rewrite odict_set_keys. destruct (decide (k ∈ d.*1)); [done|].
  intros Hnd. apply NoDup_app. split_and!; [done| |apply NoDup_singleton].
  by intros x Hx ->%list_elem_of_singleton.
Qed.

End Odict.

Lemma del_all_cons_other key v toremove objects :
  key ∉ toremove →
  del_all toremove ((key, v) :: objects) =
  match del_all toremove objects with
  | Ok objects' => Ok ((key, v) :: objects')
  | Err e => Err e
  end.
Proof.
  revert objects. induction toremove as [|k toremove IH]; intros objects Hk; [done|].
  apply not_elem_of_cons in Hk as [Hne Hk]. simpl.
  rewrite decide_False by done.
  destruct (odict_del k objects) as [objects'|]; simpl; [|done].
  by apply IH.
Qed.

Lemma del_all_filter (P : objkey * objval → Prop) `{∀ kv, Decision (P kv)}
    (objects : odict objkey objval) :
  odict_wf objects →
  del_all (filter P objects).*1 objects = Ok (filter (λ kv, ¬ P kv) objects).
Proof.
  unfold odict_wf. induction objects as [|[key v] objects IH]; [done|].
  rewrite fmap_cons, NoDup_cons. simpl. intros [Hkey Hnd].
  destruct (decide (P (key, v))) as [HP|HP].
  - rewrite filter_cons_True by done. rewrite filter_cons_False by tauto.
    simpl. rewrite decide_True by done. by apply IH.
  - rewrite filter_cons_False by done. rewrite filter_cons_True by done.
    rewrite del_all_cons_other.
    + by rewrite IH.
    + intros Hin. apply Hkey.
      apply list_elem_of_fmap in Hin as (kv & -> & Hkv%list_elem_of_filter).
      apply list_elem_of_fmap. exists kv. tauto.
Qed.

Lemma clear_doc_removes_document_eq docname (objects : odict objkey objval) :
  odict_wf objects →
  clear_doc docname (Some objects) =
  Ok (Some (filter (λ kv, kv.2.1 ≠ docname) objects)).
Proof.
  intros Hwf. unfold clear_doc.
  by rewrite (del_all_filter (λ kv, kv.2.1 = docname)).
Qed.

(** [clear_doc] never fails; it removes the objects described in the
    document, all of them, and leaves the others as they are, in their
    order; clearing the document once more changes nothing. *)
Theorem clear_doc_removes_document docname (objects : odict objkey objval) :
  odict_wf objects →
  ∃ objects',
    clear_doc docname (Some objects) = Ok (Some objects')
    ∧ objects' = filter (λ kv, kv.2.1 ≠ docname) objects
    ∧ (∀ kv, kv ∈ objects' ↔ kv ∈ objects ∧ kv.2.1 ≠ docname)
    ∧ clear_doc docname (Some objects') = Ok (Some objects').
Proof.
  intros Hwf. eexists. split; [by apply clear_doc_removes_document_eq|].
  split; [done|]. split.
  - intros kv. rewrite list_elem_of_filter. tauto.
  - rewrite clear_doc_removes_document_eq.
    + by rewrite list_filter_filter_l.
    + by apply odict_wf_filter.
Qed.

Section Domain.

Context {Builder Node : Type}.
Variable objtypes_for_role : string → option (list string).
Implicit Types (objects : odict objkey objval) (r : refnode Builder Node).

Lemma resolve_in_Some objects builder fromdocname target contnode objtypes r :
  resolve_in objects builder fromdocname target contnode objtypes = Some r →
  ∃ before objtype after v,
    objtypes = before ++ objtype :: after
    ∧ (∀ t, t ∈ before → odict_get (t, target) objects = None)
    ∧ odict_get (objtype, target) objects = Some v
    ∧ r = make_refnode builder fromdocname v.1 v.2 contnode
            (target +:+ " " +:+ objtype).
Proof.
  induction objtypes as [|t objtypes IH]; simpl; [done|].
  destruct (odict_get (t, target) objects) as [v|] eqn:E.
  - intros [= <-]. exists [], t, objtypes, v. split_and!; [done| |done..].
    by intros ? ?%elem_of_nil.
  - intros Hr. destruct (IH Hr) as (before & objtype & after & v & -> & Hb & Hv & ->).
    exists (t :: before), objtype, after, v. split_and!; [done| |done..].
    intros t' [->|Ht']%elem_of_cons; [done | by apply Hb].
Qed.

(** A cross-reference is resolved by the first object type of the role
    under which the target is registered, to the document and the label
    registered for it, with the title [target type]. *)
Theorem resolve_xref_first_registered objects fromdocname builder typ target
    contnode r :
  resolve_xref objtypes_for_role (Some objects) fromdocname builder typ target
    contnode = Ok (Some r) →
  ∃ before objtype after v,
    objtypes_for_role typ = Some (before ++ objtype :: after)
    ∧ (∀ t, t ∈ before → odict_get (t, target) objects = None)
    ∧ odict_get (objtype, target) objects = Some v
    ∧ r = make_refnode builder fromdocname v.1 v.2 contnode
            (target +:+ " " +:+ objtype).
Proof.
  unfold resolve_xref. destruct (objtypes_for_role typ) as [objtypes|]; [|done].
  intros [= Hr].
  destruct (resolve_in_Some _ _ _ _ _ _ _ Hr)
    as (before & objtype & after & v & -> & Hrest).
  by exists before, objtype, after, v.
Qed.

Lemma resolve_in_None_iff objects (builder : Builder) fromdocname target
    (contnode : Node) objtypes :
  resolve_in objects builder fromdocname target contnode objtypes = None ↔
  ∀ t, t ∈ objtypes → odict_get (t, target) objects = None.
Proof.
  induction objtypes as [|t0 objtypes IH]; simpl.
  - split; [by intros _ ? ?%elem_of_nil | done].
  - destruct (odict_get (t0, target) objects) eqn:E.
    + split; [done|]. intros Hall.
      specialize (Hall t0 (list_elem_of_here _ _)). congruence.
    + rewrite IH. split.
      * intros Hall t [->|Ht]%elem_of_cons; [done | by apply Hall].
      * intros Hall t Ht. by apply Hall, list_elem_of_further.
Qed.

(** When [resolve_xref] returns no reference: it returns [None] exactly
    when [typ] is a role and the target is registered under none of the
    object types of the role; for a [typ] that is no role it does not
    return at all but fails on iterating [None], and that is its only
    failure on a table. *)
Theorem resolve_xref_None_iff objects fromdocname (builder : Builder) typ target
    (contnode : Node) :
  (resolve_xref objtypes_for_role (Some objects) fromdocname builder typ target
     contnode = Ok None ↔
   ∃ objtypes,
     objtypes_for_role typ = Some objtypes
     ∧ ∀ t, t ∈ objtypes → odict_get (t, target) objects = None)
  ∧ (∀ e,
       resolve_xref objtypes_for_role (Some objects) fromdocname builder typ
         target contnode = Err e ↔
       e = NotIterableError ∧ objtypes_for_role typ = None).
Proof.
  unfold resolve_xref. destruct (objtypes_for_role typ) as [objtypes|]; split.
  - split.
    + intros [= Hr]. exists objtypes. split; [done|].
      by apply (resolve_in_None_iff objects builder fromdocname target contnode).
    + intros (objtypes' & [= <-] & Hall). f_equal.
      by apply resolve_in_None_iff.
  - intros e. split; [done | by intros [_ ?]].
  - split; [done | by intros (? & ? & _)].
  - intros e. split; [by intros [= <-] | by intros [-> _]].
Qed.

(** Once a document is cleared, no cross-reference leads into it. *)
Theorem no_xref_into_cleared_document docname objects data fromdocname builder
    typ target contnode r :
  odict_wf objects →
  clear_doc docname (Some objects) = Ok data →
  resolve_xref objtypes_for_role data fromdocname builder typ target contnode =
    Ok (Some r) →
  ref_todocname r ≠ docname.
Proof.
  intros Hwf. rewrite clear_doc_removes_document_eq by done. intros [= <-] Hr.
  unfold resolve_xref in Hr.
  destruct (objtypes_for_role typ) as [objtypes|]; [|done]. injection Hr as Hr.
  apply resolve_in_Some in Hr as (_ & objtype & _ & v & _ & _ & Hv & ->).
  simpl. apply odict_get_Some_elem, list_elem_of_filter in Hv. tauto.
Qed.

End Domain.

(** ** The documentation extension: the directives *)

Lemma split_nonempty c s : split c s ≠ [].
Proof.
  destruct s as [|a s]; simpl; [done|].
  destruct (Ascii.eqb a c); [done|]. by destruct (split c s).
Qed.

Lemma join_cons_cons sep x y l :
  join sep (x :: y :: l) = x +:+ sep +:+ join sep (y :: l).
Proof. done. Qed.

(** Joining what [split] returns gives the string back. *)
Lemma join_split c s : join (String c "") (split c s) = s.
Proof.
  induction s as [|a s IH]; [done|]. cbn [split].
  destruct (Ascii.eqb_spec a c) as [->|Hne].
  - destruct (split c s) as [|w ws] eqn:E; [by apply split_nonempty in E|].
    rewrite join_cons_cons, IH. done.
  - destruct (split c s) as [|w ws] eqn:E; [by apply split_nonempty in E|].
    destruct ws as [|w' ws].
    + simpl in *. by rewrite IH.
    + rewrite <- IH. by rewrite !join_cons_cons.
Qed.

Lemma length_split c s : length (split c s) = S (occurrences c s).
Proof.
  induction s as [|a s IH]; [done|]. cbn [split occurrences].
  destruct (Ascii.eqb a c); simpl; [by rewrite IH|].
  destruct (split c s) as [|w ws] eqn:E; [by apply split_nonempty in E|].
  simpl in *. lia.
Qed.

Lemma split_no_sep c s w : w ∈ split c s → occurrences c w = 0%nat.
Proof.
  revert w. induction s as [|a s IH]; intros w; cbn [split].
  - by intros ->%list_elem_of_singleton.
  - destruct (Ascii.eqb a c) eqn:Eac.
    + intros [->|Hw]%elem_of_cons; [done | by apply IH].
    + destruct (split c s) as [|w0 ws] eqn:E; [by apply split_nonempty in E|].
      intros [->|Hw]%elem_of_cons.
      * simpl. rewrite Eac. apply IH, list_elem_of_here.
      * by apply IH, list_elem_of_further.
Qed.

(** The option [source] must hold exactly one colon: otherwise
    [add_source_link] fails with a [ValueError]; if it does, the two parts
    are the file name and the line, free of colons, the file name is added
    to the snake files of the environment, from which nothing is dropped,
    and the link to the highlighted file at that line is appended to the
    signature node. *)
Theorem add_source_link_one_colon self sn source :
  d_source self = Some source →
  (add_source_link self sn = Err ValueError ↔ occurrences ":" source ≠ 1%nat)
  ∧ (occurrences ":" source = 1%nat →
     ∃ filename lineno self' sn',
       add_source_link self sn = Ok (self', sn')
       ∧ source = filename +:+ ":" +:+ lineno
       ∧ occurrences ":" filename = 0%nat
       ∧ occurrences ":" lineno = 0%nat
       ∧ d_snakefiles self' =
         Some (default ∅ (d_snakefiles self) ∪ {[filename]})
       ∧ sn_children sn' =
         sn_children sn ++
           [source_link ("_snakefiles/" +:+ filename +:+ ".html#line-"
                         +:+ lineno)]).
Proof.
  intros Hs. unfold add_source_link. rewrite Hs.
  pose proof (length_split ":" source) as Hlen.
  pose proof (join_split ":" source) as Hjoin.
  pose proof (split_no_sep ":" source) as Hsep.
  destruct (split ":" source) as [|filename [|lineno [|x parts]]]; simpl in Hlen.
  - lia.
  - split; [split; [lia|done] | lia].
  - split; [split; [done|lia] |]. intros _.
    eexists filename, lineno, _, _. split; [done|]. split_and!.
    + by rewrite <- Hjoin.
    + apply Hsep, list_elem_of_here.
    + apply Hsep, list_elem_of_further, list_elem_of_here.
    + done.
    + done.
  - split; [split; [lia|done] | lia].
Qed.

(** [handle_signature] and the option [source]. The signature node
    always gets the annotation and the name. Without the option that is
    all, and the identifier is returned. With an option that has exactly
    one colon the source link follows them, the file is among the snake
    files of the environment, and the identifier is returned. With any
    other option the call fails with a [ValueError], and by then the
    annotation and the name are on the signature node already; the
    directive is as it was. *)
Theorem handle_signature_source_option ws_sub typename self sig sn self' sn' r :
  handle_signature ws_sub typename self sig sn = (self', sn', r) →
  ∃ link,
    sn_children sn' =
      sn_children sn ++ [desc_annotation typename (typename +:+ " ");
                         desc_name sig sig] ++ link
    ∧ ((d_source self = None ∧ r = Ok (ws_sub sig) ∧ link = [] ∧ self' = self)
       ∨ (∃ source filename lineno,
            d_source self = Some source
            ∧ occurrences ":" source = 1%nat
            ∧ source = filename +:+ ":" +:+ lineno
            ∧ r = Ok (ws_sub sig)
            ∧ link = [source_link ("_snakefiles/" +:+ filename
                                   +:+ ".html#line-" +:+ lineno)]
            ∧ d_snakefiles self' =
              Some (default ∅ (d_snakefiles self) ∪ {[filename]}))
       ∨ (∃ source,
            d_source self = Some source
            ∧ occurrences ":" source ≠ 1%nat
            ∧ r = Err ValueError ∧ link = [] ∧ self' = self)).
Proof.
  unfold handle_signature. destruct (d_source self) as [source|] eqn:Hs.
  - unfold add_source_link. rewrite Hs.
    pose proof (length_split ":" source) as Hlen.
    pose proof (join_split ":" source) as Hjoin.
    destruct (split ":" source) as [|filename [|lineno [|x parts]]];
      simpl in Hlen; intros [= <- <- <-]; simpl.
    + lia.
    + exists []. split; [by rewrite <- ?app_assoc|]. right. right.
      exists source. split_and!; [done|lia|done..].
    + eexists [_]. split; [by rewrite <- ?app_assoc|]. right. left.
      exists source, filename, lineno. split_and!; [done|lia| |done..].
      by rewrite <- Hjoin.
    + exists []. split; [by rewrite <- ?app_assoc|]. right. right.
      exists source. split_and!; [done|lia|done..].
  - intros [= <- <- <-]. exists []. simpl.
    split; [by rewrite <- ?app_assoc|]. by left.
Qed.

Lemma get_index_text_nonempty typename name : get_index_text typename name ≠ "".
Proof. unfold get_index_text. by destruct name. Qed.

(** An object already registered with the document, or not: the three
    ways [add_target_and_index] goes. *)
Lemma add_target_and_index_unfold doc2path self name sn :
  add_target_and_index doc2path self name sn =
  let targetname := join "-" [d_objtype self; name] in
  if bool_decide (targetname ∈ d_document_ids self)
  then Ok (with_index_entry self (d_objtype self) name, sn)
  else
    match d_objects self with
    | None => Err KeyError
    | Some objects =>
        let sn' :=
          mk_signode (sn_children sn) (sn_names sn ++ [targetname])
            (sn_ids sn ++ [targetname])
            (Some (bool_decide (d_names self = []))) in
        Ok (with_index_entry
              (mk_directive (d_objtype self) (d_names self) (d_lineno self)
                 (d_source self)
                 (d_document_ids self ∪ list_to_set (sn_ids sn'))
                 (d_docname self)
                 (Some (odict_set (d_objtype self, name)
                          (d_docname self, targetname) objects))
                 (d_snakefiles self)
                 (match odict_get (d_objtype self, name) objects with
                  | Some other =>
                      d_warnings self ++
                        [(d_docname self,
                          duplicate_warning doc2path (d_objtype self) name
                            other.1 (d_lineno self))]
                  | None => d_warnings self
                  end)
                 (d_index self))
              (d_objtype self) name,
            sn')
    end.
Proof.
  unfold add_target_and_index. cbv zeta.
  destruct (bool_decide (join "-" [d_objtype self; name] ∈ d_document_ids self)).
  - by rewrite bool_decide_eq_false_2 by apply get_index_text_nonempty.
  - destruct (d_objects self) as [objects|]; [|done].
    by rewrite bool_decide_eq_false_2 by apply get_index_text_nonempty.
Qed.

(** Whenever [add_target_and_index] returns, it has appended exactly one
    entry to the index, for the object under its target name: the index
    text is never empty, so the guard on it lets every object through, the
    ones not registered again included. *)
Theorem every_description_is_indexed doc2path self name sn self' sn' :
  add_target_and_index doc2path self name sn = Ok (self', sn') →
  d_index self' =
  d_index self ++
    [("single", name +:+ " (" +:+ d_objtype self +:+ ")",
      d_objtype self +:+ "-" +:+ name, "", None)].
Proof.
  rewrite add_target_and_index_unfold. cbv zeta.
  destruct (bool_decide _).
  - by intros [= <- <-].
  - destruct (d_objects self); [|done]. by intros [= <- <-].
Qed.

(** Describing an object that the document does not have yet registers
    it, and the registration is what a cross-reference finds: a role whose
    first object type is the type of the directive resolves the name to
    the document of the directive and to the target [type-name], which is
    also the id given to the signature node. *)
Theorem described_object_resolves {Builder Node : Type} doc2path
    (objtypes_for_role : string → option (list string)) self name sn objects
    typ others
    fromdocname (builder : Builder) (contnode : Node) :
  join "-" [d_objtype self; name] ∉ d_document_ids self →
  d_objects self = Some objects →
  objtypes_for_role typ = Some (d_objtype self :: others) →
  ∃ self' sn',
    add_target_and_index doc2path self name sn = Ok (self', sn')
    ∧ sn_ids sn' = sn_ids sn ++ [join "-" [d_objtype self; name]]
    ∧ resolve_xref objtypes_for_role (d_objects self') fromdocname builder typ
        name contnode =
      Ok (Some (make_refnode builder fromdocname (d_docname self)
                  (join "-" [d_objtype self; name]) contnode
                  (name +:+ " " +:+ d_objtype self))).
Proof.
  intros Hids Hobjects Hrole. rewrite add_target_and_index_unfold. cbv zeta.
  rewrite bool_decide_eq_false_2 by done. rewrite Hobjects.
  eexists _, _. split; [done|]. split; [done|].
  unfold resolve_xref. cbn [with_index_entry d_objects]. rewrite Hrole.
  cbn [resolve_in]. rewrite odict_get_set. by rewrite decide_True.
Qed.

(** Describing the same object once more in the same document registers
    nothing: the second call leaves the objects table, the warnings, the
    ids of the document and the signature node it is given as they are,
    and only adds its entry to the index. *)
Theorem second_description_ignored doc2path self name sn self1 sn1 sn2 :
  add_target_and_index doc2path self name sn = Ok (self1, sn1) →
  add_target_and_index doc2path self1 name sn2 =
  Ok (with_index_entry self1 (d_objtype self1) name, sn2).
Proof.
  rewrite add_target_and_index_unfold. cbv zeta. intros H.
  assert (d_objtype self1 = d_objtype self
          ∧ join "-" [d_objtype self; name] ∈ d_document_ids self1) as [Ht Hin].
  { destruct (bool_decide _) eqn:E.
    - injection H as <- <-. split; [done|]. by apply bool_decide_eq_true in E.
    - destruct (d_objects self); [|done]. injection H as <- <-.
      split; [done|]. cbn [with_index_entry d_document_ids sn_ids].
      apply elem_of_union. right. apply elem_of_list_to_set, elem_of_app.
      right. apply list_elem_of_here. }
  rewrite add_target_and_index_unfold. cbv zeta.
  rewrite Ht. by rewrite bool_decide_eq_true_2.
Qed.

(** Describing in another document an object that is registered already:
    one warning is issued, naming the document of the earlier
    description, and the new description takes the entry over; the table
    keeps its keys, in their order, and every other entry. *)
Theorem redescription_warns_and_replaces doc2path self name sn objects other :
  join "-" [d_objtype self; name] ∉ d_document_ids self →
  d_objects self = Some objects →
  odict_get (d_objtype self, name) objects = Some other →
  ∃ self' sn' objects',
    add_target_and_index doc2path self name sn = Ok (self', sn')
    ∧ d_objects self' = Some objects'
    ∧ d_warnings self' =
      d_warnings self ++
        [(d_docname self,
          duplicate_warning doc2path (d_objtype self) name other.1
            (d_lineno self))]
    ∧ odict_get (d_objtype self, name) objects' =
      Some (d_docname self, join "-" [d_objtype self; name])
    ∧ (∀ key, key ≠ (d_objtype self, name) →
              odict_get key objects' = odict_get key objects)
    ∧ objects'.*1 = objects.*1.
Proof.
  intros Hids Hobjects Hother. rewrite add_target_and_index_unfold. cbv zeta.
  rewrite bool_decide_eq_false_2 by done. rewrite Hobjects, Hother.
  eexists _, _, _. split; [done|]. split; [done|]. split; [done|]. split_and!.
  - rewrite odict_get_set. by rewrite decide_True.
  - intros key Hkey. rewrite odict_get_set. by rewrite decide_False.
  - rewrite odict_set_keys. rewrite decide_True; [done|].
    apply odict_get_Some_elem in Hother.
    apply list_elem_of_fmap. by eexists (_, _).
Qed.

(** *** The extension on concrete tables and directives *)

Lemma sm_objects_wf : odict_wf sm_objects.
Proof. unfold odict_wf. apply (bool_decide_unpack _). vm_compute. exact I. Defined.

Lemma clear_doc_removes_document_witness :
  clear_doc "rules" (Some sm_objects) =
  Ok (Some [(("stage", "trim_bbmap"), ("stages", "stage-trim_bbmap"))]).
Proof.
  destruct (clear_doc_removes_document "rules" sm_objects sm_objects_wf)
    as (objects' & H & -> & _).
  exact H.
Defined.

Lemma resolve_xref_first_registered_witness :
  ∃ before objtype after v,
    sm_objtypes_for_role "stage" = Some (before ++ objtype :: after)
    ∧ (∀ t, t ∈ before → odict_get (t, "trim_bbmap") sm_objects = None)
    ∧ odict_get (objtype, "trim_bbmap") sm_objects = Some v
    ∧ make_refnode tt "index" "stages" "stage-trim_bbmap" "trim_bbmap"
        "trim_bbmap stage" =
      make_refnode tt "index" v.1 v.2 "trim_bbmap"
        ("trim_bbmap" +:+ " " +:+ objtype).
Proof.
  apply (resolve_xref_first_registered sm_objtypes_for_role sm_objects "index" tt
           "stage" "trim_bbmap" "trim_bbmap").
  vm_compute; reflexivity.
Defined.

Lemma no_xref_into_cleared_document_witness :
  ref_todocname
    (make_refnode tt "index" "stages" "stage-trim_bbmap" "trim_bbmap"
       "trim_bbmap stage") ≠ "rules".
Proof.
  apply (no_xref_into_cleared_document sm_objtypes_for_role "rules" sm_objects
           (Some [(("stage", "trim_bbmap"), ("stages", "stage-trim_bbmap"))])
           "index" tt "stage" "trim_bbmap" "trim_bbmap").
  - apply sm_objects_wf.
  - vm_compute; reflexivity.
  - vm_compute; reflexivity.
Defined.

Lemma add_source_link_one_colon_witness :
  add_source_link sm_stage_directive sm_signode =
  Ok (mk_directive "stage" [] 12 (Some "rules/bbmap.rules:12") ∅ "pipelines"
        (Some sm_objects) (Some (∅ ∪ {["rules/bbmap.rules"]})) [] [],
      mk_signode [source_link "_snakefiles/rules/bbmap.rules.html#line-12"]
        [] [] None).
Proof.
  destruct (add_source_link_one_colon sm_stage_directive sm_signode
              "rules/bbmap.rules:12") as [_ H].
  - reflexivity.
  - destruct H as (filename & lineno & self' & sn' & H & _); [reflexivity|].
    rewrite H. vm_compute in H. injection H as <- <-. reflexivity.
Defined.

Lemma handle_signature_source_option_witness :
  ∃ link,
    [desc_annotation "stage" "stage "; desc_name "trim_bbmap" "trim_bbmap"] =
      [] ++ [desc_annotation "stage" ("stage" +:+ " ");
             desc_name "trim_bbmap" "trim_bbmap"] ++ link
    ∧ ((d_source sm_drive_directive = None
        ∧ @Err string ValueError = Ok "trim_bbmap" ∧ link = []
        ∧ sm_drive_directive = sm_drive_directive)
       ∨ (∃ source filename lineno,
            d_source sm_drive_directive = Some source
            ∧ occurrences ":" source = 1%nat
            ∧ source = filename +:+ ":" +:+ lineno
            ∧ @Err string ValueError = Ok "trim_bbmap"
            ∧ link = [source_link ("_snakefiles/" +:+ filename
                                   +:+ ".html#line-" +:+ lineno)]
            ∧ d_snakefiles sm_drive_directive =
              Some (default ∅ (d_snakefiles sm_drive_directive) ∪ {[filename]}))
       ∨ (∃ source,
            d_source sm_drive_directive = Some source
            ∧ occurrences ":" source ≠ 1%nat
            ∧ @Err string ValueError = Err ValueError ∧ link = []
            ∧ sm_drive_directive = sm_drive_directive)).
Proof.
  apply (handle_signature_source_option (λ sig, sig) "stage" sm_drive_directive
           "trim_bbmap" sm_signode sm_drive_directive
           (mk_signode [desc_annotation "stage" "stage ";
                        desc_name "trim_bbmap" "trim_bbmap"] [] [] None)
           (Err ValueError)).
  vm_compute; reflexivity.
Defined.

Lemma resolve_xref_None_iff_witness :
  resolve_xref sm_objtypes_for_role (Some sm_objects) "index" tt "stage"
    "bbmap_map" "bbmap_map" = Ok None
  ∧ resolve_xref sm_objtypes_for_role (Some sm_objects) "index" tt "func"
      "bbmap_map" "bbmap_map" = Err NotIterableError.
Proof.
  split.
  - apply (proj1 (resolve_xref_None_iff sm_objtypes_for_role sm_objects "index"
                    tt "stage" "bbmap_map" "bbmap_map")).
    exists ["stage"]. split; [reflexivity|].
    intros t ->%list_elem_of_singleton. reflexivity.
  - apply (proj2 (resolve_xref_None_iff sm_objtypes_for_role sm_objects "index"
                    tt "func" "bbmap_map" "bbmap_map")).
    split; reflexivity.
Defined.

Lemma every_description_is_indexed_witness :
  ∃ self' sn',
    add_target_and_index (λ d, d +:+ ".rst") sm_rule_directive "bbmap_map"
      sm_signode = Ok (self', sn')
    ∧ d_index self' = [("single", "bbmap_map (rule)", "rule-bbmap_map", "", None)]
    ∧ d_objects self' = Some sm_objects.
Proof.
  eexists _, _. split; [vm_compute; reflexivity|]. split; [|reflexivity].
  eapply (every_description_is_indexed (λ d, d +:+ ".rst") sm_rule_directive
            "bbmap_map" sm_signode).
  vm_compute; reflexivity.
Defined.

Lemma described_object_resolves_witness :
  ∃ self' sn',
    add_target_and_index (λ d, d +:+ ".rst") sm_rule_directive "bbmap_dedup"
      sm_signode = Ok (self', sn')
    ∧ sn_ids sn' = ["rule-bbmap_dedup"]
    ∧ resolve_xref sm_objtypes_for_role (d_objects self') "index" tt "rule"
        "bbmap_dedup" "bbmap_dedup" =
      Ok (Some (make_refnode tt "index" "rules" "rule-bbmap_dedup" "bbmap_dedup"
                  "bbmap_dedup rule")).
Proof.
  apply (described_object_resolves (λ d, d +:+ ".rst") sm_objtypes_for_role
           sm_rule_directive "bbmap_dedup" sm_signode sm_objects "rule" []
           "index" tt "bbmap_dedup").
  - vm_compute. set_solver.
  - reflexivity.
  - reflexivity.
Defined.

Lemma second_description_ignored_witness :
  ∃ self1 sn1,
    add_target_and_index (λ d, d +:+ ".rst") sm_rule_directive "bbmap_dedup"
      sm_signode = Ok (self1, sn1)
    ∧ add_target_and_index (λ d, d +:+ ".rst") self1 "bbmap_dedup" sm_signode =
      Ok (with_index_entry self1 "rule" "bbmap_dedup", sm_signode).
Proof.
  eexists _, _. split; [vm_compute; reflexivity|].
  eapply (second_description_ignored (λ d, d +:+ ".rst") sm_rule_directive
            "bbmap_dedup" sm_signode).
  vm_compute; reflexivity.
Defined.

Lemma redescription_warns_and_replaces_witness :
  ∃ self' sn',
    add_target_and_index (λ d, d +:+ ".rst") sm_stage_directive "trim_bbmap"
      sm_signode = Ok (self', sn')
    ∧ d_warnings self' =
      [("pipelines",
        "duplicate description of stage trim_bbmap, other instance in stages.rst:12")]
    ∧ d_objects self' =
      Some [(("rule", "bbmap_trim"), ("rules", "rule-bbmap_trim"));
            (("stage", "trim_bbmap"), ("pipelines", "stage-trim_bbmap"));
            (("rule", "bbmap_map"), ("rules", "rule-bbmap_map"))].
Proof.
  destruct (redescription_warns_and_replaces (λ d, d +:+ ".rst")
              sm_stage_directive "trim_bbmap" sm_signode sm_objects
              ("stages", "stage-trim_bbmap"))
    as (self' & sn' & objects' & H & _).
  - vm_compute. set_solver.
  - reflexivity.
  - reflexivity.
  - exists self', sn'. split; [exact H|].
    vm_compute in H. injection H as <- <-. split; reflexivity.
Defined.

(** ** The tables of test targets *)

Lemma for_each_ext {A B} (f g : A → res (list B)) l :
  (∀ x, x ∈ l → f x = g x) → for_each f l = for_each g l.
Proof.
  induction l as [|x l IH]; intros H; [done|]. simpl.
  rewrite (H x) by apply list_elem_of_here.
  rewrite IH; [done|]. intros y Hy. by apply H, list_elem_of_further.
Qed.

Lemma for_each_sublist {A B} (f g : A → res (list B)) l a b :
  (∀ x fa gb, x ∈ l → f x = Ok fa → g x = Ok gb → fa `sublist_of` gb) →
  for_each f l = Ok a → for_each g l = Ok b → a `sublist_of` b.
Proof.
  revert a b. induction l as [|x l IH]; intros a b H; simpl.
  - by intros [= <-] [= <-].
  - destruct (f x) as [fa|] eqn:Ef; [|done].
    destruct (for_each f l) as [a'|] eqn:Ea; [|done].
    destruct (g x) as [gb|] eqn:Eg; [|done].
    destruct (for_each g l) as [b'|] eqn:Eb; [|done].
    intros [= <-] [= <-]. apply sublist_app.
    + apply (H x); [apply list_elem_of_here | done..].
    + apply IH; [|done..]. intros y fa' gb' Hy. by apply H, list_elem_of_further.
Qed.

Lemma for_each_Ok {A B} (f g : A → res (list B)) l b :
  (∀ x gb, x ∈ l → g x = Ok gb → ∃ fa, f x = Ok fa) →
  for_each g l = Ok b → ∃ a, for_each f l = Ok a.
Proof.
  revert b. induction l as [|x l IH]; intros b H; simpl; [by eauto|].
  destruct (g x) as [gb|] eqn:Eg; [|done].
  destruct (for_each g l) as [b'|] eqn:Eb; [|done]. intros _.
  destruct (H x gb) as [fa ->]; [apply list_elem_of_here | done |].
  destruct (IH b') as [a' ->]; [|done|by eauto].
  intros y gb' Hy. by apply H, list_elem_of_further.
Qed.

(** When no data set of a listed data type is among the large ones, the
    flag [large] makes no difference. *)
Lemma large_irrelevant (T : tables) ll exclude_targets :
  odict_get "large" (dataset_map T) = Some ll →
  (∀ dtype datasets dataset,
     dtype ∈ data_types T → odict_get dtype (dataset_map T) = Some datasets →
     dataset ∈ datasets → dataset ∉ ll) →
  get_targets T false exclude_targets = get_targets T true exclude_targets.
Proof.
  intros Hll Hsmall. unfold get_targets.
  apply for_each_ext. intros dtype Hdtype. unfold getitem at 1 3.
  destruct (odict_get dtype (dataset_map T)) as [datasets|] eqn:Hd; [|done].
  apply for_each_ext. intros dataset Hdataset.
  destruct (getitem dtype (target_map T)) as [tm|]; [|done].
  apply for_each_ext. intros target _.
  unfold target_param.
  assert (getitem "large" (dataset_map T) = Ok ll) as ->
    by (unfold getitem; by rewrite Hll).
  rewrite bool_decide_eq_true_2; [done|]. by eapply Hsmall.
Qed.

(** With the tables of the module, [get_targets] yields the same
    parameters whether [large] is set or not: the only large data set is
    listed under no data type that is iterated. *)
Theorem large_flag_has_no_effect large exclude_targets :
  get_targets data_tables large exclude_targets =
  get_targets data_tables true exclude_targets.
Proof.
  destruct large; [done|].
  apply (large_irrelevant data_tables ["ibd"]); [done|].
  intros dtype datasets dataset Hdtype Hd Hdataset.
  intros ->%list_elem_of_singleton. simpl in Hdtype.
  repeat (apply elem_of_cons in Hdtype as [->|Hdtype];
          [vm_compute in Hd; injection Hd as <-;
           repeat (apply elem_of_cons in Hdataset as [[=]|Hdataset]);
           by apply elem_of_nil in Hdataset|]).
  by apply elem_of_nil in Hdtype.
Qed.

Lemma target_param_sublist T large exclude_targets dtype dataset target fa gb :
  target_param T large exclude_targets dtype dataset target = Ok fa →
  target_param T true [] dtype dataset target = Ok gb →
  fa `sublist_of` gb.
Proof.
  unfold target_param.
  rewrite (bool_decide_eq_true_2 (target ∉ [])) by apply not_elem_of_nil.
  destruct (getitem dtype (target_map T)) as [tm|].
  2:{ by intros _ ?. }
  destruct (getitem target tm) as [path|].
  2:{ by intros _ ?. }
  intros Hfa [= <-].
  destruct (if large then _ else _) as [[|]|]; [| |done].
  - destruct (bool_decide (target ∉ exclude_targets)).
    + by injection Hfa as <-.
    + injection Hfa as <-. apply sublist_nil_l.
  - injection Hfa as <-. apply sublist_nil_l.
Qed.

(** Whatever is excluded, the parameters yielded are a selection, in
    order, of the ones yielded when nothing is excluded. *)
Lemma get_targets_sublist T large exclude_targets a b :
  get_targets T large exclude_targets = Ok a →
  get_targets T true [] = Ok b →
  a `sublist_of` b.
Proof.
  unfold get_targets. apply for_each_sublist. intros dtype fa gb _.
  destruct (getitem dtype (dataset_map T)) as [datasets|]; [|done].
  apply for_each_sublist. intros dataset fa' gb' _.
  destruct (getitem dtype (target_map T)) as [tm|]; [|done].
  apply for_each_sublist. intros target fa'' gb'' _.
  apply target_param_sublist.
Qed.

Lemma target_param_Ok T large exclude_targets ll dtype dataset target gb :
  odict_get "large" (dataset_map T) = Some ll →
  target_param T true [] dtype dataset target = Ok gb →
  ∃ fa, target_param T large exclude_targets dtype dataset target = Ok fa.
Proof.
  intros Hll. unfold target_param.
  assert (getitem "large" (dataset_map T) = Ok ll) as ->
    by (unfold getitem; by rewrite Hll).
  rewrite (bool_decide_eq_true_2 (target ∉ [])) by apply not_elem_of_nil.
  destruct (getitem dtype (target_map T)) as [tm|]; [|done].
  destruct (getitem target tm) as [path|]; [|done]. intros _.
  destruct large, (bool_decide (dataset ∉ ll)),
    (bool_decide (target ∉ exclude_targets)); eauto.
Qed.

Lemma get_targets_Ok T large exclude_targets ll b :
  odict_get "large" (dataset_map T) = Some ll →
  get_targets T true [] = Ok b →
  ∃ a, get_targets T large exclude_targets = Ok a.
Proof.
  intros Hll. unfold get_targets. apply for_each_Ok. intros dtype gb _.
  destruct (getitem dtype (dataset_map T)) as [datasets|]; [|done].
  apply for_each_Ok. intros dataset gb' _.
  destruct (getitem dtype (target_map T)) as [tm|]; [|done].
  apply for_each_Ok. intros target gb'' _.
  by apply target_param_Ok with ll.
Qed.

Lemma sublist_fmap_mono {A B} (f : A → B) (a b : list A) :
  a `sublist_of` b → (f <$> a) `sublist_of` (f <$> b).
Proof.
  induction 1 as [|x a b _ IH|x a b _ IH]; simpl.
  - apply sublist_nil.
  - by apply sublist_skip.
  - by apply sublist_cons.
Qed.


(** With the tables of the module, [get_targets] never fails, whatever
    is excluded, and no two parameters it yields have the same id; for
    each of them the project directory and the project are the same data
    set. *)
Theorem test_ids_are_unique large exclude_targets :
  ∃ l, get_targets data_tables large exclude_targets = Ok l
       ∧ NoDup (p_id <$> l)
       ∧ ∀ p, p ∈ l → (p_values p).1.1 = (p_values p).2.
Proof.
  destruct (get_targets data_tables true []) as [b|] eqn:Hb; [|by vm_compute in Hb].
  destruct (get_targets_Ok data_tables large exclude_targets ["ibd"] b)
    as [l Hl]; [done..|].
  exists l. split; [done|].
  pose proof (get_targets_sublist _ _ _ _ _ Hl Hb) as Hsub.
  assert (NoDup (p_id <$> b)
          ∧ Forall (λ p, (p_values p).1.1 = (p_values p).2) b) as [Hnd Hall].
  { vm_compute in Hb. injection Hb as <-.
    split; apply (bool_decide_unpack _); vm_compute; exact I. }
  split.
  - apply (sublist_NoDup (p_id <$> l) (p_id <$> b));
      first [by apply sublist_fmap_mono | done].
  - intros p Hp. rewrite Forall_forall in Hall.
    by eapply Hall, elem_of_sublist.
Qed.

Lemma odict_get_app `{EqDecision K} {V} (k : K) (d1 d2 : odict K V) :
  odict_get k (d1 ++ d2) =
  match odict_get k d1 with Some v => Some v | None => odict_get k d2 end.
Proof.
  induction d1 as [|[k0 v0] d1 IH]; simpl; [done|].
  by destruct (decide (k = k0)).
Qed.

(** After [d.update(other)] a key of [other] has the value [other]
    gives it, any other key the value it had. *)
Lemma odict_get_update {V} k (d other : odict string V) :
  odict_wf other →
  odict_get k (odict_update d other) =
  match odict_get k other with Some v => Some v | None => odict_get k d end.
Proof.
  unfold odict_update, odict_wf.
  induction other as [|[k1 v1] other IH] using rev_ind; intros Hwf; [done|].
  rewrite fmap_app, NoDup_app in Hwf. destruct Hwf as (Hwf & Hk1 & _).
  rewrite foldl_snoc, odict_get_set, odict_get_app. simpl.
  destruct (decide (k = k1)) as [->|Hne].
  - assert (odict_get k1 other = None) as ->; [|done].
    apply odict_get_None_keys. intros Hin. apply (Hk1 k1 Hin).
    apply list_elem_of_here.
  - rewrite IH by done. by destruct (odict_get k other).
Qed.

(** In the merged table [targets] a target has the path of the last
    target type that lists it. *)
Theorem targets_later_type_wins T before ty m after k path :
  target_map T = before ++ (ty, m) :: after →
  odict_wf m →
  odict_get k m = Some path →
  (∀ tm, tm ∈ after → odict_wf tm.2 ∧ odict_get k tm.2 = None) →
  odict_get k (targets T) = Some path.
Proof.
  intros HT Hwf Hk Hafter. unfold targets. rewrite HT, foldl_app. simpl.
  set (acc := odict_update _ m).
  assert (odict_get k acc = Some path) as Hacc.
  { unfold acc. by rewrite odict_get_update, Hk. }
  clearbody acc. clear HT. revert acc Hacc Hafter.
  induction after as [|tm after IH]; intros acc Hacc Hafter; [done|].
  simpl. apply IH.
  - destruct (Hafter tm) as [Hwf' Hnone]; [apply list_elem_of_here|].
    by rewrite odict_get_update, Hnone.
  - intros tm' Htm'. by apply Hafter, list_elem_of_further.
Qed.

Lemma targets_later_type_wins_witness :
  odict_get "fastqc" (nth 0 (target_map overlap_tables) ("", []))
    .2 = Some "{}.qc_fastqc/all"
  ∧ odict_get "fastqc" (targets overlap_tables) = Some "reports/{}.fastqc.html".
Proof.
  split; [reflexivity|].
  eapply (targets_later_type_wins overlap_tables
            [nth 0 (target_map overlap_tables) ("", [])] "metagenome" _
            [nth 2 (target_map overlap_tables) ("", [])]).
  - reflexivity.
  - unfold odict_wf. apply (bool_decide_unpack _). vm_compute. exact I.
  - vm_compute; reflexivity.
  - intros tm ->%list_elem_of_singleton. split.
    + unfold odict_wf. apply (bool_decide_unpack _). vm_compute. exact I.
    + vm_compute; reflexivity.
Defined.

(** ** Entries of the table of contents *)

Lemma get_ref_skip before rest :
  Forall no_ref before →
  get_ref (before ++ rest) =
  match get_ref rest with
  | Ok (r, rest') => Ok (r, before ++ rest')
  | Err e => Err e
  end.
Proof.
  induction 1 as [|n before [Hids Hfirst] _ IH]; simpl.
  - by destruct (get_ref rest) as [[??]|].
  - rewrite Hids, Hfirst, IH. by destruct (get_ref rest) as [[??]|].
Qed.

(** The reference of a node is the first id of the nearest node, going
    up from it, that has an id or whose first child has one; in the
    latter case that node is given the id of the child with [-tocentry]
    appended, and nothing else is changed. *)
Theorem get_ref_nearest_id chain r chain' :
  get_ref chain = Ok (Some r, chain') →
  ∃ before node after,
    chain = before ++ node :: after
    ∧ Forall no_ref before
    ∧ ((∃ ids, tn_ids node = r :: ids ∧ chain' = chain)
       ∨ (∃ i ids,
            tn_ids node = [] ∧ first_child_ids (tn_first node) = Ok (i :: ids)
            ∧ r = i +:+ "-tocentry"
            ∧ chain' = before ++ mk_tnode [r] (tn_first node) :: after)).
Proof.
  revert chain'. induction chain as [|node parents IH]; intros chain'; [done|].
  cbn [get_ref]. destruct (tn_ids node) as [|i ids] eqn:Hids.
  - destruct (first_child_ids (tn_first node)) as [[|i ids]|] eqn:Hfirst; [| |done].
    + destruct (get_ref parents) as [[r' parents']|] eqn:Hp; [|done].
      intros [= -> <-].
      destruct (IH _ eq_refl) as (before & n & after & -> & Hb & Hn).
      exists (node :: before), n, after. split; [done|].
      split; [by apply Forall_cons|].
      destruct Hn as [(ids & Hn & ->)|(i & ids & Hn & Hf & -> & ->)].
      * left. by exists ids.
      * right. by exists i, ids.
    + intros [= <- <-]. exists [], node, parents. split; [done|].
      split; [apply Forall_nil_2|]. right. by exists i, ids.
  - intros [= <- <-]. exists [], node, parents. split; [done|].
    split; [apply Forall_nil_2|]. left. by exists ids.
Qed.

(** Asking again gives the same reference and changes nothing: the
    anchor put into the table of contents is the one later calls compare
    with. *)
Theorem get_ref_idempotent chain r chain' :
  get_ref chain = Ok (Some r, chain') →
  get_ref chain' = Ok (Some r, chain').
Proof.
  revert chain'. induction chain as [|node parents IH]; intros chain'; [done|].
  cbn [get_ref]. destruct (tn_ids node) as [|i ids] eqn:Hids.
  - destruct (first_child_ids (tn_first node)) as [[|i ids]|] eqn:Hfirst; [| |done].
    + destruct (get_ref parents) as [[r' parents']|] eqn:Hp; [|done].
      intros [= -> <-]. cbn [get_ref]. by rewrite Hids, Hfirst, (IH _ eq_refl).
    + by intros [= <- <-].
  - intros [= <- <-]. cbn [get_ref]. by rewrite Hids.
Qed.

(** No reference is found exactly when no node of the chain has an id or
    a first child with an id; the chain is then left as it was. *)
Theorem get_ref_None_iff chain chain' :
  get_ref chain = Ok (None, chain') ↔ chain' = chain ∧ Forall no_ref chain.
Proof.
  split.
  - revert chain'. induction chain as [|node parents IH]; intros chain'.
    + by intros [= <-].
    + cbn [get_ref]. destruct (tn_ids node) as [|i ids] eqn:Hids; [|done].
      destruct (first_child_ids (tn_first node)) as [[|i ids]|] eqn:Hfirst;
        [|done..].
      destruct (get_ref parents) as [[r' parents']|] eqn:Hp; [|done].
      intros [= -> <-]. destruct (IH _ eq_refl) as [-> Hall].
      split; [done|]. by apply Forall_cons.
  - intros [-> Hall]. rewrite <- (app_nil_r chain) at 1.
    rewrite get_ref_skip by done. simpl. by rewrite app_nil_r.
Qed.

Lemma first_bullet_list_Some children i :
  first_bullet_list children = Some i →
  ∃ items, children !! i = Some (bullet_list items)
           ∧ ∀ j c, (j < i)%nat → children !! j = Some c → is_bullet_list c = false.
Proof.
  revert i. induction children as [|c children IH]; intros i; [done|].
  cbn [first_bullet_list]. destruct c as [items|t]; simpl.
  - intros [= <-]. exists items. split; [done|]. intros j c Hj. lia.
  - destruct (first_bullet_list children) as [i'|]; [|done]. intros [= <-].
    destruct (IH _ eq_refl) as (items & Hi & Hbefore). exists items.
    split; [done|]. intros [|j] c Hj Hc.
    + by injection Hc as <-.
    + apply (Hbefore j); [lia | done].
Qed.

Lemma first_bullet_list_None children :
  first_bullet_list children = None ↔ Forall (λ c, is_bullet_list c = false) children.
Proof.
  induction children as [|c children IH]; cbn [first_bullet_list].
  - split; [constructor | done].
  - rewrite Forall_cons. destruct (is_bullet_list c).
    + split; [done | by intros [? _]].
    + rewrite <- IH. destruct (first_bullet_list children); simpl; split;
        try done; by intros [_ ?].
Qed.

Lemma first_bullet_list_app_item children i items item :
  first_bullet_list children = Some i →
  children !! i = Some (bullet_list items) →
  first_bullet_list (append_item i item children) = Some i
  ∧ append_item i item children !! i = Some (bullet_list (items ++ [item])).
Proof.
  unfold append_item. revert i.
  induction children as [|c children IH]; intros i; [done|].
  cbn [first_bullet_list]. destruct c as [items0|t]; simpl.
  - intros [= <-] [= ->]. done.
  - destruct (first_bullet_list children) as [i'|] eqn:E; [|done].
    intros [= <-] Hi. simpl in Hi.
    destruct (IH i' eq_refl Hi) as [H1 H2].
    assert (∀ f : toc_child → toc_child,
              alter f (S i') (toc_other t :: children) =
              toc_other t :: alter f i' children) as -> by done.
    cbn [first_bullet_list is_bullet_list]. rewrite H1. split; [done|].
    exact H2.
Qed.

(** An entry goes to the end of the first bullet list under the node of
    the table of contents, which is created, empty and after the other
    children, if there is none; the entry refers to the document and,
    after a [#], to the reference of the node. No other child is
    touched. *)
Theorem toc_insert_appends docname tocnode chain heading r chain' :
  get_ref chain = Ok (Some r, chain') →
  ∃ tocnode' i items,
    toc_insert docname tocnode chain heading = (tocnode', chain', None)
    ∧ first_bullet_list tocnode' = Some i
    ∧ tocnode' !! i =
      Some (bullet_list (items ++ [mk_toc_item docname ("#" +:+ r) heading]))
    ∧ (first_bullet_list tocnode = Some i ∧ tocnode !! i = Some (bullet_list items)
       ∧ length tocnode' = length tocnode
       ∨ first_bullet_list tocnode = None ∧ i = length tocnode ∧ items = []
         ∧ length tocnode' = S (length tocnode))
    ∧ ∀ j, j ≠ i → (j < length tocnode)%nat → tocnode' !! j = tocnode !! j.
Proof.
  intros Href. unfold toc_insert. rewrite Href.
  destruct (first_bullet_list tocnode) as [i|] eqn:Hfirst.
  - destruct (first_bullet_list_Some _ _ Hfirst) as (items & Hi & _).
    destruct (first_bullet_list_app_item _ _ _
                (mk_toc_item docname ("#" +:+ r) heading) Hfirst Hi) as [H1 H2].
    eexists _, i, items. split; [done|]. split; [done|]. split; [done|].
    split.
    + left. split_and!; [done..|]. unfold append_item. by rewrite length_alter.
    + intros j Hj _. unfold append_item. by rewrite list_lookup_alter_ne.
  - eexists _, (length tocnode), []. split; [done|].
    assert (append_item (length tocnode)
              (mk_toc_item docname ("#" +:+ r) heading)
              (tocnode ++ [bullet_list []]) =
            tocnode ++ [bullet_list [mk_toc_item docname ("#" +:+ r) heading]])
      as ->.
    { unfold append_item. rewrite alter_app_r_alt by done.
      by rewrite Nat.sub_diag. }
    split_and!.
    + apply first_bullet_list_None in Hfirst. clear Href.
      induction Hfirst as [|c cs Hc _ IH]; [done|].
      simpl. by rewrite Hc, IH.
    + by rewrite list_lookup_middle.
    + right. split_and!; [done..|]. rewrite length_app. simpl. lia.
    + intros j _ Hj. by rewrite lookup_app_l.
Qed.

(** Two entries inserted one after the other under the same node end up
    in the same bullet list, the second right after the first. *)
Theorem toc_insert_twice_in_order docname tocnode chain1 heading1 r1 chain1'
    chain2 heading2 r2 chain2' tocnode1 :
  get_ref chain1 = Ok (Some r1, chain1') →
  get_ref chain2 = Ok (Some r2, chain2') →
  toc_insert docname tocnode chain1 heading1 = (tocnode1, chain1', None) →
  ∃ tocnode2 i items,
    toc_insert docname tocnode1 chain2 heading2 = (tocnode2, chain2', None)
    ∧ first_bullet_list tocnode2 = Some i
    ∧ tocnode2 !! i =
      Some (bullet_list (items ++ [mk_toc_item docname ("#" +:+ r1) heading1;
                                   mk_toc_item docname ("#" +:+ r2) heading2]))
    ∧ length tocnode2 = length tocnode1.
Proof.
  intros Href1 Href2 H1.
  assert (∃ i items,
            first_bullet_list tocnode1 = Some i
            ∧ tocnode1 !! i =
              Some (bullet_list
                      (items ++ [mk_toc_item docname ("#" +:+ r1) heading1])))
    as (i & items & Hfirst & Hi).
  { unfold toc_insert in H1. rewrite Href1 in H1.
    destruct (first_bullet_list tocnode) as [i|] eqn:Hfirst.
    - destruct (first_bullet_list_Some _ _ Hfirst) as (items & Hi & _).
      injection H1 as <-. exists i, items.
      by apply first_bullet_list_app_item.
    - injection H1 as <-. exists (length tocnode), [].
      unfold append_item. rewrite alter_app_r_alt by done.
      rewrite Nat.sub_diag. simpl. split; [|by rewrite list_lookup_middle].
      apply first_bullet_list_None in Hfirst. clear Href1.
      induction Hfirst as [|c cs Hc _ IH]; [done|].
      simpl. by rewrite Hc, IH. }
  unfold toc_insert. rewrite Href2, Hfirst.
  destruct (first_bullet_list_app_item _ _ _
              (mk_toc_item docname ("#" +:+ r2) heading2) Hfirst Hi) as [H2 H3].
  eexists _, i, items. split; [done|]. split; [done|]. split.
  - rewrite H3. by rewrite <- app_assoc.
  - unfold append_item. by rewrite length_alter.
Qed.

(** When no reference is found for the node, [toc_insert] fails on
    concatenating ["#"] and [None]; by then a node of the table of
    contents that had no bullet list has been given an empty one. *)
Theorem toc_insert_without_reference docname tocnode chain heading :
  Forall no_ref chain →
  toc_insert docname tocnode chain heading =
  (match first_bullet_list tocnode with
   | Some _ => tocnode
   | None => tocnode ++ [bullet_list []]
   end, chain, Some ConcatError).
Proof.
  intros Hall. unfold toc_insert.
  assert (get_ref chain = Ok (None, chain)) as ->
    by (by apply get_ref_None_iff).
  by destruct (first_bullet_list tocnode).
Qed.

(** *** Entries of the table of contents, on a small document *)

Lemma get_ref_nearest_id_witness :
  ∃ before node after,
    desc_chain = before ++ node :: after
    ∧ Forall no_ref before
    ∧ ((∃ ids, tn_ids node = "stage-trim_bbmap-tocentry" :: ids
               ∧ mk_tnode ["stage-trim_bbmap-tocentry"]
                   (element_child ["stage-trim_bbmap"]) :: tail desc_chain =
                 desc_chain)
       ∨ (∃ i ids,
            tn_ids node = []
            ∧ first_child_ids (tn_first node) = Ok (i :: ids)
            ∧ "stage-trim_bbmap-tocentry" = i +:+ "-tocentry"
            ∧ mk_tnode ["stage-trim_bbmap-tocentry"]
                (element_child ["stage-trim_bbmap"]) :: tail desc_chain =
              before ++ mk_tnode ["stage-trim_bbmap-tocentry"] (tn_first node)
                          :: after)).
Proof.
  apply (get_ref_nearest_id desc_chain "stage-trim_bbmap-tocentry").
  vm_compute; reflexivity.
Defined.

Lemma get_ref_idempotent_witness :
  ∃ chain',
    get_ref desc_chain = Ok (Some "stage-trim_bbmap-tocentry", chain')
    ∧ get_ref chain' = Ok (Some "stage-trim_bbmap-tocentry", chain').
Proof.
  eexists. split; [vm_compute; reflexivity|].
  apply (get_ref_idempotent desc_chain). vm_compute; reflexivity.
Defined.

Lemma get_ref_None_iff_witness :
  get_ref [mk_tnode [] (element_child []); mk_tnode [] node_below] =
  Ok (None, [mk_tnode [] (element_child []); mk_tnode [] node_below]).
Proof.
  apply get_ref_None_iff. split; [reflexivity|].
  repeat (apply Forall_cons; split; [by split|]). apply Forall_nil_2.
Defined.

Lemma toc_insert_appends_witness :
  ∃ chain' tocnode' i items,
    toc_insert "stages" toc_title_only desc_chain ["trim_bbmap"] =
      (tocnode', chain', None)
    ∧ first_bullet_list tocnode' = Some i
    ∧ tocnode' !! i =
      Some (bullet_list
              (items ++ [mk_toc_item "stages" ("#" +:+ "stage-trim_bbmap-tocentry")
                           ["trim_bbmap"]])).
Proof.
  eexists.
  edestruct (toc_insert_appends "stages" toc_title_only desc_chain ["trim_bbmap"]
               "stage-trim_bbmap-tocentry")
    as (tocnode' & i & items & H1 & H2 & H3 & _).
  - vm_compute; reflexivity.
  - exists tocnode', i, items. split; [exact H1|]. split; [exact H2 | exact H3].
Defined.

Lemma toc_insert_twice_in_order_witness :
  let first := toc_insert "stages" toc_with_list desc_chain ["trim_bbmap"] in
  let chain2 :=
    [mk_tnode ["stage-dedup_bbmap-tocentry"] (element_child ["stage-dedup_bbmap"])] in
  ∃ tocnode2 i items,
    toc_insert "stages" first.1.1 chain2 ["dedup_bbmap"] = (tocnode2, chain2, None)
    ∧ first_bullet_list tocnode2 = Some i
    ∧ tocnode2 !! i =
      Some (bullet_list
              (items ++
                 [mk_toc_item "stages" ("#" +:+ "stage-trim_bbmap-tocentry")
                    ["trim_bbmap"];
                  mk_toc_item "stages" ("#" +:+ "stage-dedup_bbmap-tocentry")
                    ["dedup_bbmap"]]))
    ∧ length tocnode2 = length first.1.1.
Proof.
  intros first chain2.
  apply (toc_insert_twice_in_order "stages" toc_with_list desc_chain
           ["trim_bbmap"] "stage-trim_bbmap-tocentry" first.1.2 chain2
           ["dedup_bbmap"] "stage-dedup_bbmap-tocentry" chain2 first.1.1).
  - vm_compute; reflexivity.
  - vm_compute; reflexivity.
  - vm_compute; reflexivity.
Defined.

Lemma toc_insert_without_reference_witness :
  toc_insert "stages" toc_title_only [mk_tnode [] (element_child [])]
    ["trim_bbmap"] =
  ([toc_other "compact_paragraph"; bullet_list []],
   [mk_tnode [] (element_child [])], Some ConcatError).
Proof.
  apply (toc_insert_without_reference "stages" toc_title_only
           [mk_tnode [] (element_child [])] ["trim_bbmap"]).
  apply Forall_cons. split; [by split | apply Forall_nil_2].
Defined.
